(** * Learner-mode step matching and insertion guidance

    A shallow embedding of the learner-mode engine of the lesson workspace
    ([src/components/LessonWorkspace.tsx]) and of the fallback of the step
    generator ([src/services/geminiService.ts]), and of the code around
    them: the initial buffer, automatic indentation and the rendering of
    instructions in the workspace; the processing of a generated course and
    the preview images in the generation service; the completion of lessons
    in the application; the next lesson and the locks of the course map; the
    storage service.

    JavaScript strings are sequences of UTF-16 code units; they are modelled
    as lists of code units ([N]).  JavaScript numbers that only ever hold
    integers are modelled as [Z]; the scroll offset, which divides by two,
    is modelled exactly in [Q]. *)

From Stdlib Require Import Strings.String Strings.Ascii.
From Stdlib Require DecimalString DecimalNat.
From Stdlib Require Import Permutation Sorted.
From Stdlib Require Import List Bool Arith ZArith NArith Lia QArith Qminmax.
Import ListNotations.

(* ================================================================== *)
(** ** JavaScript strings *)
(* ================================================================== *)

Definition jschar := N.
Definition jsstring := list jschar.

(** A source literal (ASCII only), as code units. *)
Definition lit (s : string) : jsstring :=
  List.map N_of_ascii (list_ascii_of_string s).

Definition NL : jschar := 10%N.

Fixpoint jseqb (s t : jsstring) : bool :=
  match s, t with
  | [], [] => true
  | c :: s', d :: t' => N.eqb c d && jseqb s' t'
  | _, _ => false
  end.

(** The characters matched by the regular-expression class [\s], which are
    also the ones [String.prototype.trim] strips: WhiteSpace and
    LineTerminator of ECMAScript. *)
Definition isWhiteSpace (c : jschar) : bool :=
  ((9 <=? c) && (c <=? 13) (* TAB LF VT FF CR *)
   || (c =? 32) || (c =? 160) || (c =? 5760)
   || (8192 <=? c) && (c <=? 8202)
   || (c =? 8232) || (c =? 8233) || (c =? 8239) || (c =? 8287)
   || (c =? 12288) || (c =? 65279))%N.

Fixpoint trimStart (s : jsstring) : jsstring :=
  match s with
  | [] => []
  | c :: s' => if isWhiteSpace c then trimStart s' else s
  end.

Definition trimEnd (s : jsstring) : jsstring := rev (trimStart (rev s)).

(** [s.trim()] *)
Definition trim (s : jsstring) : jsstring := trimEnd (trimStart s).

(** [s.startsWith(p)] *)
Fixpoint startsWith (s p : jsstring) {struct p} : bool :=
  match p, s with
  | [], _ => true
  | _ :: _, [] => false
  | d :: p', c :: s' => N.eqb c d && startsWith s' p'
  end.

(** [s.endsWith(p)] *)
Definition endsWith (s p : jsstring) : bool :=
  (length p <=? length s)%nat && jseqb (skipn (length s - length p) s) p.

(** [s.indexOf(p)], searching from position [pos] of the original string, of
    which [s] is the part from [pos] on; [-1] when [p] does not occur. *)
Fixpoint indexOfFrom (s p : jsstring) (pos : Z) : Z :=
  if startsWith s p then pos
  else match s with
       | [] => (-1)%Z
       | _ :: s' => indexOfFrom s' p (pos + 1)
       end.

Definition indexOf (s p : jsstring) : Z := indexOfFrom s p 0.

(** [s.includes(p)] *)
Definition includes (s p : jsstring) : bool :=
  negb (indexOf s p =? -1)%Z.

(** [s.slice(b, e)]: a negative bound counts from the end, every bound is
    clamped to the string. *)
Definition sliceBound (len k : Z) : Z :=
  if (k <? 0)%Z then Z.max (len + k) 0 else Z.min k len.

Definition slice (s : jsstring) (b e : Z) : jsstring :=
  let len := Z.of_nat (length s) in
  let from := sliceBound len b in
  let to := sliceBound len e in
  firstn (Z.to_nat (to - from)) (skipn (Z.to_nat from) s).

(** [s.split('\n')]: the pieces between the line feeds; never empty, the
    empty string gives one empty piece. *)
Fixpoint splitLines (s : jsstring) : list jsstring :=
  match s with
  | [] => [[]]
  | c :: s' =>
      if (c =? NL)%N then [] :: splitLines s'
      else match splitLines s' with
           | [] => [[c]]
           | l :: ls => (c :: l) :: ls
           end
  end.

(** [s.replace(/\s+/g, '')]: every maximal run of white space is replaced by
    the empty string, which leaves the other characters in order. *)
Definition stripWhiteSpace (s : jsstring) : jsstring :=
  List.filter (fun c => negb (isWhiteSpace c)) s.

(* ================================================================== *)
(** ** Data model ([LearnerStep] of the type declarations) *)
(* ================================================================== *)

Record LearnerStep := mkStep {
  code : jsstring;
  explanation : jsstring;
  context : option jsstring  (* [context?: string], [None] when absent *)
}.

(* ================================================================== *)
(** ** Step source: [generateLearnerSteps] and its fallback *)
(* ================================================================== *)

(** What the [try] block of [generateLearnerSteps] comes to: the remote call
    and [JSON.parse] give a list of steps, or one of them throws. *)
Inductive generation :=
| Answered (steps : list LearnerStep)
| Threw.

Definition GENERIC_EXPLANATION : jsstring := lit "Type this line.".

Definition generateLearnerSteps (g : generation) (solution : jsstring)
  : list LearnerStep :=
  match g with
  | Answered steps => steps
  | Threw =>
      List.map (fun l => mkStep l GENERIC_EXPLANATION None)
        (List.filter (fun l => (0 <? length (trim l))%nat)
           (splitLines solution))
  end.

(* ================================================================== *)
(** ** Step filter (in [initializeLearnerMode]) *)
(* ================================================================== *)

Definition HTML_COMMENT_OPEN : jsstring := lit "<!--".
Definition HTML_COMMENT_CLOSE : jsstring := lit "-->".
Definition LINE_COMMENT : jsstring := lit "//".
Definition BLOCK_COMMENT : jsstring := [47; 42]%N. (* slash, star *)

(** The callback of [steps.filter]. *)
Definition keepStep (s : LearnerStep) : bool :=
  let trimmed := trim (code s) in
  if (length trimmed =? 0)%nat then false
  else if startsWith trimmed HTML_COMMENT_OPEN
          || endsWith trimmed HTML_COMMENT_CLOSE then false
  else if startsWith trimmed LINE_COMMENT
          || startsWith trimmed BLOCK_COMMENT then false
  else true.

Definition filterSteps (steps : list LearnerStep) : list LearnerStep :=
  List.filter keepStep steps.

(** [initializeLearnerMode]: the lesson's own steps when it has some,
    otherwise the generated ones; filtered; the index starts at 0. *)
Definition initializeLearnerMode (lessonSteps : option (list LearnerStep))
    (g : generation) (solution : jsstring) : list LearnerStep * nat :=
  let steps :=
    match lessonSteps with
    | Some (s :: ss) => s :: ss
    | _ => generateLearnerSteps g solution
    end in
  (filterSteps steps, 0%nat).

(* ================================================================== *)
(** ** Insertion locator: [getInsertionLineIndex] *)
(* ================================================================== *)

Definition INSERTION_MARKER : jsstring := lit "<!-- Write code here -->".

(** Number of pieces of [s.split('\n')]. *)
Definition lineCount (s : jsstring) : Z := Z.of_nat (length (splitLines s)).

(** The part of [getInsertionLineIndex] after the context branch. *)
Definition markerOrEnd (code : jsstring) : Z :=
  let markerIdx := indexOf code INSERTION_MARKER in
  if negb (markerIdx =? -1)%Z then lineCount (slice code 0 markerIdx) - 1
  else lineCount code.

(** [None] is JavaScript's [null]. *)
Definition getInsertionLineIndex (learnerSteps : list LearnerStep)
    (currentStepIndex : nat) (code : jsstring) : option Z :=
  match nth_error learnerSteps currentStepIndex with
  | None => None
  | Some step =>
      match code with
      | [] => Some 0%Z
      | _ :: _ =>
          match context step with
          | Some (c :: ctx') =>
              let ctx := c :: ctx' in
              let idx := indexOf code (trim ctx) in
              if negb (idx =? -1)%Z then
                let upToContext :=
                  slice code 0 (idx + Z.of_nat (length ctx)) in
                Some (lineCount upToContext)
              else Some (markerOrEnd code)
          | _ => Some (markerOrEnd code)
          end
      end
  end.

(* ================================================================== *)
(** ** Scroll target (the scroll effect and [handleLocateInsertion]) *)
(* ================================================================== *)

Definition LINE_HEIGHT : Z := 24.

(** The [top] argument of [scrollTo]: [Math.max(0, top - containerHeight/2)]
    with [top = line * LINE_HEIGHT + 24].  The division is the exact one of
    JavaScript numbers. *)
Definition scrollTop (line containerHeight : Z) : Q :=
  let top := (line * LINE_HEIGHT + 24)%Z in
  Qmax 0 (inject_Z top - inject_Z containerHeight / 2).

(** The scroll effect: the highlighted line and, when there is a line and a
    container ([clientHeight] given), the scroll command. *)
Definition scrollEffect (learnerModeActive : bool)
    (learnerSteps : list LearnerStep) (currentStepIndex : nat)
    (code : jsstring) (clientHeight : option Z) : option Z * option Q :=
  if learnerModeActive then
    let line := getInsertionLineIndex learnerSteps currentStepIndex code in
    (line,
     match line, clientHeight with
     | Some l, Some h => Some (scrollTop l h)
     | _, _ => None
     end)
  else (None, None).

(* ================================================================== *)
(** ** Progress tracker: the real-time validation effect *)
(* ================================================================== *)

Inductive event :=
| SetLearnerFeedback (msg : jsstring)
| ClearFeedbackAfter (ms : Z)
| SetCheckResult (passed : bool) (feedback : jsstring)
| OnComplete (lessonId code : jsstring)
| ShowPreviewTab.

Definition ADVANCED_MSG : jsstring := lit "Excellent! Next step unlocked.".
Definition COMPLETED_MSG : jsstring :=
  lit "You completed all steps in Learner Mode!".

(** What one run of the effect reads besides the step list and the index. *)
Record render := mkRender {
  learnerModeActive : bool;
  buffer : jsstring;       (* the [code] state *)
  innerWidth : Z           (* [window.innerWidth] *)
}.

(** One run of the effect: the index after the state update it queues, and
    what it emits, in order. *)
Definition validate (lessonId : jsstring) (learnerSteps : list LearnerStep)
    (currentStepIndex : nat) (r : render) : nat * list event :=
  if negb (learnerModeActive r)
     || (length learnerSteps <=? currentStepIndex)%nat
  then (currentStepIndex, [])
  else
    match nth_error learnerSteps currentStepIndex with
    | None => (currentStepIndex, [])
    | Some currentTarget =>
        let normalizedCode := stripWhiteSpace (buffer r) in
        let normalizedTarget := stripWhiteSpace (code currentTarget) in
        if includes normalizedCode normalizedTarget then
          (S currentStepIndex,
           [SetLearnerFeedback ADVANCED_MSG; ClearFeedbackAfter 2000]
           ++ (if (length learnerSteps <=? currentStepIndex + 1)%nat then
                 [SetCheckResult true COMPLETED_MSG;
                  OnComplete lessonId (buffer r)]
                 ++ (if (innerWidth r <? 768)%Z then [ShowPreviewTab]
                     else [])
               else []))
        else (currentStepIndex, [])
    end.

(** The effect run once per render of a sequence, the step list fixed:
    the final index and everything emitted. *)
Fixpoint runValidation (lessonId : jsstring) (learnerSteps : list LearnerStep)
    (currentStepIndex : nat) (rs : list render) : nat * list event :=
  match rs with
  | [] => (currentStepIndex, [])
  | r :: rs' =>
      let '(i, evs) := validate lessonId learnerSteps currentStepIndex r in
      let '(j, evs') := runValidation lessonId learnerSteps i rs' in
      (j, evs ++ evs')
  end.

Definition isOnComplete (e : event) : bool :=
  match e with OnComplete _ _ => true | _ => false end.

(** How many times the completion callback fires in a list of events. *)
Definition completions (evs : list event) : nat :=
  length (List.filter isOnComplete evs).

(* ================================================================== *)
(** ** Specification vocabulary *)
(* ================================================================== *)

(** [p] occurs in [s] at offset [i], code unit for code unit. *)
Definition occursAt (p s : jsstring) (i : nat) : Prop :=
  exists pre post, s = pre ++ p ++ post /\ length pre = i.

(** [p] is a substring of [s]. *)
Definition Contains (s p : jsstring) : Prop := exists i, occursAt p s i.

(** [i] is the offset of the first occurrence of [p] in [s]. *)
Definition leftmostAt (p s : jsstring) (i : nat) : Prop :=
  occursAt p s i /\ forall j, (j < i)%nat -> ~ occursAt p s j.

Definition isPrefix (p s : jsstring) : Prop := exists t, s = p ++ t.
Definition isSuffix (p s : jsstring) : Prop := exists t, s = t ++ p.

(** Number of line feeds of a string. *)
Fixpoint countNL (s : jsstring) : nat :=
  match s with
  | [] => 0
  | c :: s' => (if (c =? NL)%N then 1 else 0) + countNL s'
  end.

(** The lines joined again by line feeds. *)
Fixpoint joinLines (ls : list jsstring) : jsstring :=
  match ls with
  | [] => []
  | [l] => l
  | l :: ls' => l ++ NL :: joinLines ls'
  end.

(** [l1] is [l2] with some elements left out, the order kept. *)
Inductive Subseq {A : Type} : list A -> list A -> Prop :=
| Subseq_nil : Subseq [] []
| Subseq_skip : forall x l1 l2, Subseq l1 l2 -> Subseq l1 (x :: l2)
| Subseq_keep : forall x l1 l2, Subseq l1 l2 -> Subseq (x :: l1) (x :: l2).

(** The context branch of the locator is taken: the step has a non-empty
    context whose trimmed text occurs in the buffer. *)
Definition contextApplies (buf : jsstring) (step : LearnerStep) : Prop :=
  exists ctx, context step = Some ctx /\ ctx <> [] /\ Contains buf (trim ctx).

(** A step passes the filter, in the words of the rule set: the trimmed
    code is not empty and is no comment by its first or last characters. *)
Definition survives (s : LearnerStep) : Prop :=
  let t := trim (code s) in
  length t <> 0%nat
  /\ ~ isPrefix HTML_COMMENT_OPEN t
  /\ ~ isSuffix HTML_COMMENT_CLOSE t
  /\ ~ isPrefix LINE_COMMENT t
  /\ ~ isPrefix BLOCK_COMMENT t.

(** The buffer of a render holds the normalized code of a step. *)
Definition matches (r : render) (step : LearnerStep) : Prop :=
  Contains (stripWhiteSpace (buffer r)) (stripWhiteSpace (code step)).

(** Concrete data of the scenarios. *)
Definition scenarioD_buffer : jsstring :=
  lit "<body>" ++ NL :: lit "  <!-- Write code here -->" ++ NL :: lit "</body>".

Definition step_of (c : string) : LearnerStep :=
  mkStep (lit c) (lit "") None.

Definition scenarioB_steps : list LearnerStep :=
  [step_of "color: red;"; step_of "font-size: 2em;"].

(* ================================================================== *)
(** ** Initial buffer of the editor (the lesson effect) *)
(* ================================================================== *)

(** Case folding of the regular-expression flag [i] for a pattern of ASCII
    characters: only the ASCII letters of the other case fold together. *)
Definition toUpperAscii (c : jschar) : jschar :=
  if ((97 <=? c) && (c <=? 122))%N then (c - 32)%N else c.

Definition eqIgnoreCase (c p : jschar) : bool :=
  (toUpperAscii c =? toUpperAscii p)%N.

(** The regular expression [/<p>/i] matches at the start of [s]. *)
Fixpoint startsWithIgnoreCase (s p : jsstring) {struct p} : bool :=
  match p, s with
  | [], _ => true
  | _ :: _, [] => false
  | d :: p', c :: s' => eqIgnoreCase c d && startsWithIgnoreCase s' p'
  end.

(** [s.replace(/<p>/i, repl)] for a replacement text without [$]: the first
    match is replaced, a string without match is returned as it is. *)
Fixpoint replaceFirstIgnoreCase (s p repl : jsstring) {struct s} : jsstring :=
  if startsWithIgnoreCase s p then repl ++ skipn (length p) s
  else match s with
       | [] => []
       | c :: s' => c :: replaceFirstIgnoreCase s' p repl
       end.

Definition BODY_TAG : jsstring := lit "<body>".

(** [a || b] on strings, [a] possibly undefined. *)
Definition orElse (a : option jsstring) (b : jsstring) : jsstring :=
  match a with
  | Some (c :: a') => c :: a'
  | _ => b
  end.

(** [!a] for a string that may be undefined. *)
Definition falsy (a : option jsstring) : bool :=
  match a with
  | Some (_ :: _) => false
  | _ => true
  end.

(** The value the lesson effect gives to [setCode]. *)
Definition prepareInitialCode (showInsertionHints : bool)
    (userCode : option jsstring) (lessonInitialCode : jsstring) : jsstring :=
  let initialCode := orElse userCode lessonInitialCode in
  if showInsertionHints && negb (includes initialCode INSERTION_MARKER)
     && falsy userCode
  then
    if includes initialCode BODY_TAG then
      replaceFirstIgnoreCase initialCode BODY_TAG
        (BODY_TAG ++ NL :: lit "  " ++ INSERTION_MARKER)
    else if jseqb (trim initialCode) [] then INSERTION_MARKER
    else initialCode ++ NL :: NL :: INSERTION_MARKER
  else initialCode.

(** [handleLocateInsertion]: the scroll command, when there is a line and a
    container. *)
Definition handleLocateInsertion (learnerSteps : list LearnerStep)
    (currentStepIndex : nat) (code : jsstring) (clientHeight : option Z)
  : option Q :=
  match getInsertionLineIndex learnerSteps currentStepIndex code,
        clientHeight with
  | Some line, Some h => Some (scrollTop line h)
  | _, _ => None
  end.

(* ================================================================== *)
(** ** Courses (the type declarations) *)
(* ================================================================== *)

Module Lesson.
Record t := mk {
  id : jsstring;
  title : jsstring;
  description : jsstring;
  concept : jsstring;
  instructions : jsstring;
  initialCode : jsstring;
  solutionCode : jsstring;
  userCode : option jsstring;
  completed : bool;
  steps : option (list LearnerStep)
}.
End Lesson.

Module CourseModule.
Record t := mk {
  id : jsstring;
  title : jsstring;
  description : jsstring;
  lessons : list Lesson.t
}.
End CourseModule.

Module Course.
Record t := mk {
  id : jsstring;
  title : jsstring;
  description : jsstring;
  finalOutcomeDescription : jsstring;
  visualDescription : option jsstring;
  previewImage : option jsstring;
  modules : list CourseModule.t;
  lastAccessed : option Z;
  createdAt : Z
}.
End Course.

(** [course.modules.flatMap(m => m.lessons)] *)
Definition allLessons (course : Course.t) : list Lesson.t :=
  flat_map CourseModule.lessons (Course.modules course).

(* ================================================================== *)
(** ** Completing a lesson ([handleCompleteLesson] of the application) *)
(* ================================================================== *)

(** The callback of the inner [map]: [{ ...l, completed: true, userCode }]
    for the lesson of the given id, the lesson itself otherwise. *)
Definition markCompleted (lessonId userCode : jsstring) (l : Lesson.t)
  : Lesson.t :=
  if jseqb (Lesson.id l) lessonId then
    Lesson.mk (Lesson.id l) (Lesson.title l) (Lesson.description l)
      (Lesson.concept l) (Lesson.instructions l) (Lesson.initialCode l)
      (Lesson.solutionCode l) (Some userCode) true (Lesson.steps l)
  else l.

Definition completeInModule (lessonId userCode : jsstring)
    (m : CourseModule.t) : CourseModule.t :=
  CourseModule.mk (CourseModule.id m) (CourseModule.title m)
    (CourseModule.description m)
    (List.map (markCompleted lessonId userCode) (CourseModule.lessons m)).

(** [updatedCourse] *)
Definition completeInCourse (lessonId userCode : jsstring) (course : Course.t)
  : Course.t :=
  Course.mk (Course.id course) (Course.title course)
    (Course.description course) (Course.finalOutcomeDescription course)
    (Course.visualDescription course) (Course.previewImage course)
    (List.map (completeInModule lessonId userCode) (Course.modules course))
    (Course.lastAccessed course) (Course.createdAt course).

(** The [course] state after [handleCompleteLesson]: nothing happens without
    a course. *)
Definition handleCompleteLesson (course : option Course.t)
    (lessonId userCode : jsstring) : option Course.t :=
  match course with
  | None => None
  | Some c => Some (completeInCourse lessonId userCode c)
  end.

(* ================================================================== *)
(** ** The course map: next lesson and locks *)
(* ================================================================== *)

(** The inner loop of [getNextLesson]. *)
Fixpoint firstOpenLesson (ls : list Lesson.t) : option Lesson.t :=
  match ls with
  | [] => None
  | lesson :: ls' =>
      if negb (Lesson.completed lesson) then Some lesson
      else firstOpenLesson ls'
  end.

(** The outer loop of [getNextLesson]. *)
Fixpoint firstOpenInModules (ms : list CourseModule.t) : option Lesson.t :=
  match ms with
  | [] => None
  | m :: ms' =>
      match firstOpenLesson (CourseModule.lessons m) with
      | Some lesson => Some lesson
      | None => firstOpenInModules ms'
      end
  end.

Definition getNextLesson (course : Course.t) : option Lesson.t :=
  firstOpenInModules (Course.modules course).

(** [isLocked] of the lesson drawn at absolute index [myIndex]; [None] when
    there is no lesson at that index. *)
Definition isLocked (course : Course.t) (myIndex : nat) : option bool :=
  match nth_error (allLessons course) myIndex with
  | None => None
  | Some lesson =>
      let isCompleted := Lesson.completed lesson in
      let isFirstLesson := (myIndex =? 0)%nat in
      let prevLessonCompleted :=
        (0 <? myIndex)%nat
        && match nth_error (allLessons course) (myIndex - 1) with
           | Some prev => Lesson.completed prev
           | None => false
           end in
      Some (negb isFirstLesson && negb prevLessonCompleted
            && negb isCompleted)
  end.

(** [isCurrent] of the lesson drawn at absolute index [myIndex]. *)
Definition isCurrent (course : Course.t) (myIndex : nat) : option bool :=
  match isLocked course myIndex, nth_error (allLessons course) myIndex with
  | Some locked, Some lesson =>
      Some (negb locked && negb (Lesson.completed lesson))
  | _, _ => None
  end.

(** Concrete course of the examples: one module, two lessons, none done. *)
Definition lesson_of (i : string) (done : bool) : Lesson.t :=
  Lesson.mk (lit i) [] [] [] [] [] [] None done None.

Definition demoCourse : Course.t :=
  Course.mk (lit "course-1") [] [] [] None None
    [CourseModule.mk (lit "mod-0") [] []
       [lesson_of "les-0-0" true; lesson_of "les-0-1" false];
     CourseModule.mk (lit "mod-1") [] [] [lesson_of "les-1-0" false]]
    None 0.

(* ================================================================== *)
(** ** A generated course ([generateCourse] after the answer is parsed) *)
(* ================================================================== *)

(** [l.map((x, i) => f(x, i))], the index counted from [i]. *)
Fixpoint mapiFrom {A B : Type} (f : nat -> A -> B) (i : nat) (l : list A)
  : list B :=
  match l with
  | [] => []
  | x :: l' => f i x :: mapiFrom f (S i) l'
  end.

Definition mapi {A B : Type} (f : nat -> A -> B) (l : list A) : list B :=
  mapiFrom f 0 l.

(** An index as a template literal prints it. *)
Definition decimal (n : nat) : jsstring :=
  lit (DecimalString.NilEmpty.string_of_uint (Nat.to_uint n)).

(** [a || b] on strings that are present; the empty string stands for a
    missing one as well, both being falsy. *)
Definition orDefault (a b : jsstring) : jsstring :=
  match a with
  | [] => b
  | _ :: _ => a
  end.

(** The callback of the inner [map] of [processedCourse]. *)
Definition processLesson (i j : nat) (l : Lesson.t) : Lesson.t :=
  Lesson.mk
    (orDefault (Lesson.id l) (lit "les-" ++ decimal i ++ lit "-" ++ decimal j))
    (Lesson.title l) (Lesson.description l) (Lesson.concept l)
    (Lesson.instructions l)
    (if (i =? 0)%nat && (j =? 0)%nat
        && (match Lesson.initialCode l with [] => true | _ :: _ => false end
            || (50 <? length (Lesson.initialCode l))%nat)
     then [] else Lesson.initialCode l)
    (Lesson.solutionCode l) (Lesson.userCode l) false (Lesson.steps l).

Definition processModule (i : nat) (m : CourseModule.t) : CourseModule.t :=
  CourseModule.mk
    (orDefault (CourseModule.id m) (lit "mod-" ++ decimal i))
    (CourseModule.title m) (CourseModule.description m)
    (mapi (processLesson i) (CourseModule.lessons m)).

(** [processedCourse]: [uuid] is what [crypto.randomUUID()] gives, [now]
    and [now'] are the two readings of [Date.now()], the first one for
    [createdAt] and the second one for [lastAccessed]. *)
Definition processCourse (data : Course.t) (uuid : jsstring) (now now' : Z)
    (visualDescription previewImage : option jsstring) : Course.t :=
  Course.mk uuid (Course.title data) (Course.description data)
    (Course.finalOutcomeDescription data) visualDescription previewImage
    (mapi processModule (Course.modules data)) (Some now') now.

(* ================================================================== *)
(** ** Browser storage (the storage service) *)
(* ================================================================== *)

(** What reading one key of [localStorage] and parsing it comes to.  The
    JSON text is not modelled: a stored value is read back as it was
    written. *)
Inductive slot (A : Type) :=
| Empty                (* [getItem] gives null or the empty string *)
| Broken               (* [JSON.parse] throws, or the value has no list in it *)
| Saved (a : A).

Arguments Empty {A}.
Arguments Broken {A}.
Arguments Saved {A} a.

Module Badge.
Record t := mk {
  id : jsstring;
  name : jsstring;
  description : jsstring;
  icon : jsstring;
  awardedAt : Z
}.
End Badge.

Inductive Theme := zephyr | sunset | ocean | forest | crimson.
Inductive DetailLevel := concise | balanced | verbose.

Module AppSettings.
Record t := mk {
  showTips : bool;
  showInsertionHints : bool;
  autoIndent : bool;
  theme : Theme;
  learnerMode : bool;
  detailLevel : DetailLevel;
  allowSkipping : bool
}.
End AppSettings.

(** A parsed settings object: any of the keys may be missing. *)
Module StoredSettings.
Record t := mk {
  showTips : option bool;
  showInsertionHints : option bool;
  autoIndent : option bool;
  theme : option Theme;
  learnerMode : option bool;
  detailLevel : option DetailLevel;
  allowSkipping : option bool
}.
End StoredSettings.

Module Storage.
Record t := mk {
  courses : slot (list Course.t);      (* key [codespark_courses_v1] *)
  settings : slot StoredSettings.t;    (* key [codespark_settings_v1] *)
  badges : slot (list Badge.t);        (* key [codespark_badges_v1] *)
  writable : bool                      (* [setItem] does not throw *)
}.
End Storage.

Definition setCourses (st : Storage.t) (cs : list Course.t) : Storage.t :=
  Storage.mk (Saved cs) (Storage.settings st) (Storage.badges st)
    (Storage.writable st).

Definition setBadges (st : Storage.t) (bs : list Badge.t) : Storage.t :=
  Storage.mk (Storage.courses st) (Storage.settings st) (Saved bs)
    (Storage.writable st).

Definition setSettings (st : Storage.t) (s : StoredSettings.t) : Storage.t :=
  Storage.mk (Storage.courses st) (Saved s) (Storage.badges st)
    (Storage.writable st).

(** [courses.findIndex(c => c.id === id)], [None] for [-1]. *)
Fixpoint findCourseIndex (id : jsstring) (cs : list Course.t) : option nat :=
  match cs with
  | [] => None
  | c :: cs' =>
      if jseqb (Course.id c) id then Some 0%nat
      else option_map S (findCourseIndex id cs')
  end.

(** [courses[index] = c] for an index of the list. *)
Fixpoint setNth {A : Type} (l : list A) (index : nat) (x : A) : list A :=
  match l, index with
  | [], _ => []
  | _ :: l', O => x :: l'
  | y :: l', S k => y :: setNth l' k x
  end.

Definition touch (course : Course.t) (lastAccessed createdAt : Z)
  : Course.t :=
  Course.mk (Course.id course) (Course.title course)
    (Course.description course) (Course.finalOutcomeDescription course)
    (Course.visualDescription course) (Course.previewImage course)
    (Course.modules course) (Some lastAccessed) createdAt.

(** [saveCourseToStorage]: [now] is the first reading of the clock and
    [now'] the second one, which only a new course takes. *)
Definition saveCourseToStorage (st : Storage.t) (course : Course.t)
    (now now' : Z) : Storage.t :=
  match
    match Storage.courses st with
    | Empty => Some []
    | Saved cs => Some cs
    | Broken => None
    end
  with
  | None => st
  | Some courses =>
      let courses' :=
        match findCourseIndex (Course.id course) courses with
        | Some index =>
            setNth courses index (touch course now (Course.createdAt course))
        | None => courses ++ [touch course now now']
        end in
      if Storage.writable st then setCourses st courses' else st
  end.

Definition lastAccessedOr0 (c : Course.t) : Z :=
  match Course.lastAccessed c with
  | Some t => t
  | None => 0%Z
  end.

(** [l.sort((a, b) => key(b) - key(a))]: the sort of arrays is stable, the
    elements come out by decreasing key, equal keys in their order. *)
Fixpoint insertDesc {A : Type} (key : A -> Z) (x : A) (l : list A) : list A :=
  match l with
  | [] => [x]
  | y :: l' =>
      if (key x <? key y)%Z then y :: insertDesc key x l' else x :: y :: l'
  end.

Fixpoint sortDesc {A : Type} (key : A -> Z) (l : list A) : list A :=
  match l with
  | [] => []
  | x :: l' => insertDesc key x (sortDesc key l')
  end.

Definition getSavedCourses (st : Storage.t) : list Course.t :=
  match Storage.courses st with
  | Saved cs => sortDesc lastAccessedOr0 cs
  | _ => []
  end.

(** [deleteCourseFromStorage]: the storage afterwards and the list
    returned. *)
Definition deleteCourseFromStorage (st : Storage.t) (courseId : jsstring)
  : Storage.t * list Course.t :=
  match Storage.courses st with
  | Saved cs =>
      let courses :=
        List.filter (fun c => negb (jseqb (Course.id c) courseId)) cs in
      if Storage.writable st then (setCourses st courses, courses)
      else (st, [])
  | _ => (st, [])
  end.

(** [saveBadgeToStorage]: the storage afterwards and the list returned. *)
Definition saveBadgeToStorage (st : Storage.t) (badge : Badge.t)
  : Storage.t * list Badge.t :=
  match
    match Storage.badges st with
    | Empty => Some []
    | Saved bs => Some bs
    | Broken => None
    end
  with
  | None => (st, [])
  | Some badges =>
      let badges' := badges ++ [badge] in
      if Storage.writable st then (setBadges st badges', badges')
      else (st, [])
  end.

Definition getSavedBadges (st : Storage.t) : list Badge.t :=
  match Storage.badges st with
  | Saved bs => sortDesc Badge.awardedAt bs
  | _ => []
  end.

Definition defaults : AppSettings.t :=
  AppSettings.mk true true true zephyr false balanced false.

Definition orDefaultOf {A : Type} (a : option A) (d : A) : A :=
  match a with
  | Some x => x
  | None => d
  end.

(** [{ ...defaults, ...parsed }] *)
Definition mergeSettings (d : AppSettings.t) (p : StoredSettings.t)
  : AppSettings.t :=
  AppSettings.mk
    (orDefaultOf (StoredSettings.showTips p) (AppSettings.showTips d))
    (orDefaultOf (StoredSettings.showInsertionHints p)
       (AppSettings.showInsertionHints d))
    (orDefaultOf (StoredSettings.autoIndent p) (AppSettings.autoIndent d))
    (orDefaultOf (StoredSettings.theme p) (AppSettings.theme d))
    (orDefaultOf (StoredSettings.learnerMode p) (AppSettings.learnerMode d))
    (orDefaultOf (StoredSettings.detailLevel p) (AppSettings.detailLevel d))
    (orDefaultOf (StoredSettings.allowSkipping p)
       (AppSettings.allowSkipping d)).

Definition getSettingsFromStorage (st : Storage.t) : AppSettings.t :=
  match Storage.settings st with
  | Saved parsed => mergeSettings defaults parsed
  | _ => defaults
  end.

(** [JSON.stringify(settings)] read back: every key is there. *)
Definition storedOf (s : AppSettings.t) : StoredSettings.t :=
  StoredSettings.mk (Some (AppSettings.showTips s))
    (Some (AppSettings.showInsertionHints s))
    (Some (AppSettings.autoIndent s)) (Some (AppSettings.theme s))
    (Some (AppSettings.learnerMode s)) (Some (AppSettings.detailLevel s))
    (Some (AppSettings.allowSkipping s)).

Definition saveSettingsToStorage (st : Storage.t) (s : AppSettings.t)
  : Storage.t :=
  if Storage.writable st then setSettings st (storedOf s) else st.

(** The stored course of a given id, the first one if there are several. *)
Definition findCourse (id : jsstring) (cs : list Course.t) : option Course.t :=
  List.find (fun c => jseqb (Course.id c) id) cs.

(** The list a slot stands for when it is read with [[]] as default. *)
Definition listOf {A : Type} (s : slot (list A)) : option (list A) :=
  match s with
  | Empty => Some []
  | Saved l => Some l
  | Broken => None
  end.

(** By decreasing key. *)
Definition sortedDesc {A : Type} (key : A -> Z) (l : list A) : Prop :=
  StronglySorted (fun a b => (key b <= key a)%Z) l.

(* ================================================================== *)
(** ** Automatic indentation ([handleKeyDown]) *)
(* ================================================================== *)

(** The last index of [c] in [s], indices counted from [i]; [acc] when
    there is none. *)
Fixpoint lastOccurrence (s : jsstring) (c : jschar) (i acc : Z) : Z :=
  match s with
  | [] => acc
  | d :: s' => lastOccurrence s' c (i + 1) (if (d =? c)%N then i else acc)
  end.

(** [s.lastIndexOf(c, pos)] for a single character [c]: the last index not
    after [pos] (clamped to the string) where [c] stands, or [-1]. *)
Definition lastIndexOfChar (s : jsstring) (c : jschar) (pos : Z) : Z :=
  let k := Z.min (Z.max pos 0) (Z.of_nat (length s) - 1) in
  if (k <? 0)%Z then (-1)%Z
  else lastOccurrence (firstn (Z.to_nat (k + 1)) s) c 0 (-1).

(** [s.substring(a, b)]: the bounds are clamped to the string and swapped
    when the first one is the larger. *)
Definition substring (s : jsstring) (a b : Z) : jsstring :=
  let len := Z.of_nat (length s) in
  let a' := Z.min (Z.max a 0) len in
  let b' := Z.min (Z.max b 0) len in
  let from := Z.min a' b' in
  let to := Z.max a' b' in
  firstn (Z.to_nat (to - from)) (skipn (Z.to_nat from) s).

(** The group of [s.match] for a start-anchored run of [\s]: the white
    space [s] starts with. *)
Fixpoint leadingWhiteSpace (s : jsstring) : jsstring :=
  match s with
  | [] => []
  | c :: s' => if isWhiteSpace c then c :: leadingWhiteSpace s' else []
  end.

Definition GT : jschar := 62%N.
Definition LT : jschar := 60%N.
Definition SLASH : jschar := 47%N.

(** [s] matches [[^>]*>$] from its start. *)
Fixpoint tagRest (s : jsstring) : bool :=
  match s with
  | [] => false
  | c :: s' =>
      match s' with
      | [] => (c =? GT)%N
      | _ :: _ => negb (c =? GT)%N && tagRest s'
      end
  end.

(** [s] matches [<[^\/][^>]*>$] from its start. *)
Definition tagHere (s : jsstring) : bool :=
  match s with
  | c0 :: c1 :: rest => (c0 =? LT)%N && negb (c1 =? SLASH)%N && tagRest rest
  | _ => false
  end.

(** [/<[^\/][^>]*>$/.test(s)] *)
Fixpoint endsWithOpenTag (s : jsstring) : bool :=
  tagHere s
  || match s with
     | [] => false
     | _ :: s' => endsWithOpenTag s'
     end.

(** The test that adds a level of indentation after the line. *)
Definition opensBlock (currentLine : jsstring) : bool :=
  endsWith (trim currentLine) (lit "{")
  || endsWith (trim currentLine) (lit "(")
  || endsWith (trim currentLine) (lit "[")
  || endsWithOpenTag (trim currentLine).

(** The text of the line before the cursor and the indentation the new line
    gets. *)
Definition currentLineAt (value : jsstring) (start : Z) : jsstring :=
  let lineStart := (lastIndexOfChar value NL (start - 1) + 1)%Z in
  substring value lineStart start.

Definition indentationAt (value : jsstring) (start : Z) : jsstring :=
  let currentLine := currentLineAt value start in
  leadingWhiteSpace currentLine
  ++ (if opensBlock currentLine then lit "  " else []).

(** [handleKeyDown]: the new value and the place of the cursor, [None] when
    the key is left to the browser.  [start] and [end_] are the selection
    of the text area. *)
Definition handleKeyDown (autoIndent learnerMode : bool) (key : jsstring)
    (start end_ : Z) (value : jsstring) : option (jsstring * Z) :=
  if (autoIndent || learnerMode) && jseqb key (lit "Enter") then
    let indentation := indentationAt value start in
    let newValue :=
      substring value 0 start ++ NL :: indentation
      ++ substring value end_ (Z.of_nat (length value)) in
    Some (newValue, (start + 1 + Z.of_nat (length indentation))%Z)
  else None.

(* ================================================================== *)
(** ** Preview images ([generateProjectPreview], [refineProjectPreview]) *)
(* ================================================================== *)

Definition PNG_PREFIX : jsstring := lit "data:image/png;base64,".
Definition JPEG_PREFIX : jsstring := lit "data:image/jpeg;base64,".
Definition JPG_PREFIX : jsstring := lit "data:image/jpg;base64,".

(** The loop over the parts of the answer: the data of the first part that
    has inline data, as a data URL; the empty string when no part has.  A
    part is given by the data of its inline data, if it has some. *)
Fixpoint firstInlineImage (parts : list (option jsstring)) : jsstring :=
  match parts with
  | [] => []
  | Some data :: _ => PNG_PREFIX ++ data
  | None :: parts' => firstInlineImage parts'
  end.

(** [s.replace(/^data:image\/(png|jpeg|jpg);base64,/, '')] *)
Definition stripDataUrlPrefix (s : jsstring) : jsstring :=
  if startsWith s PNG_PREFIX then skipn (length PNG_PREFIX) s
  else if startsWith s JPEG_PREFIX then skipn (length JPEG_PREFIX) s
  else if startsWith s JPG_PREFIX then skipn (length JPG_PREFIX) s
  else s.

(* ================================================================== *)
(** ** Instructions with code blocks ([renderInstructions]) *)
(* ================================================================== *)

Definition BACKTICK : jschar := 96%N.
Definition FENCE : jsstring := [BACKTICK; BACKTICK; BACKTICK].

(** The characters of the class [\w]. *)
Definition isWordChar (c : jschar) : bool :=
  ((48 <=? c) && (c <=? 57) || (65 <=? c) && (c <=? 90) || (c =? 95)
   || (97 <=? c) && (c <=? 122))%N.

(** Group 1 of the pattern: the longest run of word characters. *)
Fixpoint takeWord (s : jsstring) : jsstring :=
  match s with
  | [] => []
  | c :: s' => if isWordChar c then c :: takeWord s' else []
  end.

Inductive element :=
| TextBlock (text : jsstring)
| CodeBlock (language code : jsstring).

(** The text pushed for what is left, when something is left. *)
Definition trailingText (rest : jsstring) : list element :=
  match rest with
  | [] => []
  | _ :: _ => [TextBlock rest]
  end.

(** The loop of [renderInstructions] on the text from [lastIndex] on.  A
    match of the pattern starts at the first fence, takes the word after it
    as the language and one line feed if there is one, and ends with the
    first fence after that; without such a fence there is no match at all.
    [fuel] bounds the number of rounds. *)
Fixpoint renderLoop (fuel : nat) (rest : jsstring) : list element :=
  match fuel with
  | O => []
  | S fuel' =>
      let index := indexOf rest FENCE in
      if (index =? -1)%Z then trailingText rest
      else
        let afterOpen := skipn (Z.to_nat index + 3) rest in
        let language := takeWord afterOpen in
        let afterLanguage := skipn (length language) afterOpen in
        let body :=
          match afterLanguage with
          | c :: r => if (c =? NL)%N then r else afterLanguage
          | [] => []
          end in
        let close := indexOf body FENCE in
        if (close =? -1)%Z then trailingText rest
        else
          (if (0 <? index)%Z then [TextBlock (firstn (Z.to_nat index) rest)]
           else [])
          ++ CodeBlock language (firstn (Z.to_nat close) body)
             :: renderLoop fuel' (skipn (Z.to_nat close + 3) body)
  end.

Definition renderInstructions (text : jsstring) : list element :=
  renderLoop (S (length text)) text.

(** A document written out: a code block as a fenced block with its
    language and a line feed after it. *)
Definition printElement (e : element) : jsstring :=
  match e with
  | TextBlock text => text
  | CodeBlock language code => FENCE ++ language ++ NL :: code ++ FENCE
  end.

Definition printDocument (els : list element) : jsstring :=
  List.concat (List.map printElement els).

(** Elements that can be told apart when written out: texts are not empty
    and hold no backtick, languages are words, codes hold no backtick. *)
Definition plainElement (e : element) : Prop :=
  match e with
  | TextBlock text => text <> [] /\ ~ In BACKTICK text
  | CodeBlock language code =>
      forallb isWordChar language = true /\ ~ In BACKTICK code
  end.

(** No two texts side by side. *)
Fixpoint textsApart (els : list element) : Prop :=
  match els with
  | TextBlock _ :: ((TextBlock _ :: _) as rest) => False
  | _ :: rest => textsApart rest
  | [] => True
  end.

(** How many steps, from the first of [steps] on and without a gap, the
    buffer of [r] already holds. *)
Fixpoint leadingMatches (r : render) (steps : list LearnerStep) : nat :=
  match steps with
  | [] => 0
  | step :: steps' =>
      if includes (stripWhiteSpace (buffer r)) (stripWhiteSpace (code step))
      then S (leadingMatches r steps')
      else 0
  end.

(** The id a lesson without one is given. *)
Definition generatedLessonId (i j : nat) : jsstring :=
  lit "les-" ++ decimal i ++ lit "-" ++ decimal j.

(** The places of the lessons of a list of modules, the modules counted
    from [s]: module index and lesson index. *)
Fixpoint lessonPlaces (s : nat) (ms : list CourseModule.t)
  : list (nat * nat) :=
  match ms with
  | [] => []
  | m :: ms' =>
      List.map (pair s) (seq 0 (length (CourseModule.lessons m)))
      ++ lessonPlaces (S s) ms'
  end.

(* ================================================================== *)
(** * Properties *)
(* ================================================================== *)

(** ** Strings *)

Lemma jseqb_eq (s t : jsstring) : jseqb s t = true <-> s = t.
Proof.
  revert t; induction s as [|c s IH]; intros [|d t]; simpl;
    try (split; congruence).
  rewrite andb_true_iff, N.eqb_eq, IH. split.
  - intros [-> ->]; reflexivity.
  - intros E; inversion E; auto.
Qed.

Lemma startsWith_iff (s p : jsstring) :
  startsWith s p = true <-> isPrefix p s.
Proof.
  unfold isPrefix. revert s; induction p as [|d p IH]; intros s; simpl.
  - split; [intros _; exists s|]; reflexivity.
  - destruct s as [|c s].
    + split; [discriminate | intros [t E]; discriminate].
    + rewrite andb_true_iff, N.eqb_eq, IH. split.
      * intros [-> [t ->]]. exists t; reflexivity.
      * intros [t E]. inversion E; subst. split; [reflexivity|].
        exists t; reflexivity.
Qed.

Lemma endsWith_iff (s p : jsstring) :
  endsWith s p = true <-> isSuffix p s.
Proof.
  unfold endsWith, isSuffix.
  rewrite andb_true_iff, Nat.leb_le, jseqb_eq. split.
  - intros [Hle E].
    exists (firstn (length s - length p) s).
    rewrite <- (firstn_skipn (length s - length p) s) at 1.
    f_equal; exact E.
  - intros [t ->]. rewrite length_app. split; [lia|].
    replace (length t + length p - length p)%nat with (length t) by lia.
    rewrite skipn_app, skipn_all, Nat.sub_diag. reflexivity.
Qed.

Lemma occursAt_0 (p s : jsstring) :
  occursAt p s 0 <-> startsWith s p = true.
Proof.
  rewrite startsWith_iff. unfold occursAt, isPrefix. split.
  - intros (pre & post & -> & L). destruct pre; [|discriminate].
    exists post; reflexivity.
  - intros [t ->]. exists [], t. auto.
Qed.

Lemma occursAt_S (p : jsstring) c s i :
  occursAt p (c :: s) (S i) <-> occursAt p s i.
Proof.
  unfold occursAt. split.
  - intros (pre & post & E & L). destruct pre as [|d pre]; [discriminate|].
    simpl in E, L. inversion E; subst. exists pre, post. auto.
  - intros (pre & post & -> & L). exists (c :: pre), post. simpl; auto.
Qed.

Lemma occursAt_nil_inv (p : jsstring) i :
  occursAt p [] i -> p = [] /\ i = 0%nat.
Proof.
  intros (pre & post & E & L). symmetry in E.
  apply app_eq_nil in E as [-> E]. apply app_eq_nil in E as [-> _].
  simpl in L; auto.
Qed.

(** [indexOf] is a leftmost literal search: it answers [-1] exactly when
    there is no occurrence, and otherwise the first offset of one. *)
Lemma indexOfFrom_cases (s p : jsstring) (pos : Z) :
  (indexOfFrom s p pos = (-1)%Z /\ forall i, ~ occursAt p s i)
  \/ exists i, indexOfFrom s p pos = (pos + Z.of_nat i)%Z /\ leftmostAt p s i.
Proof.
  revert pos; induction s as [|c s IH]; intros pos; simpl.
  - destruct (startsWith [] p) eqn:E.
    + right. exists 0%nat. split; [lia|]. split; [apply occursAt_0; auto|].
      intros j Hj; lia.
    + left. split; [reflexivity|]. intros i H.
      destruct (occursAt_nil_inv p i H) as [-> _]. discriminate.
  - destruct (startsWith (c :: s) p) eqn:E.
    + right. exists 0%nat. split; [lia|]. split; [apply occursAt_0; auto|].
      intros j Hj; lia.
    + assert (N0 : ~ occursAt p (c :: s) 0)
        by (rewrite occursAt_0; congruence).
      destruct (IH (pos + 1)%Z) as [[E1 H1] | (i & E1 & H1 & H2)].
      * left. split; [exact E1|]. intros [|i] H; [auto|].
        apply occursAt_S in H. exact (H1 i H).
      * right. exists (S i). split; [lia|]. split.
        -- apply occursAt_S; exact H1.
        -- intros [|j] Hj; [exact N0|].
           rewrite occursAt_S. apply H2; lia.
Qed.

Lemma leftmostAt_unique (p s : jsstring) i j :
  leftmostAt p s i -> leftmostAt p s j -> i = j.
Proof.
  intros [Hi Li] [Hj Lj].
  destruct (Nat.lt_trichotomy i j) as [H | [H | H]]; auto.
  - destruct (Lj i H Hi).
  - destruct (Li j H Hj).
Qed.

Lemma indexOf_cases (s p : jsstring) :
  (indexOf s p = (-1)%Z /\ ~ Contains s p)
  \/ exists i, indexOf s p = Z.of_nat i /\ leftmostAt p s i.
Proof.
  unfold indexOf, Contains.
  destruct (indexOfFrom_cases s p 0) as [[E H] | (i & E & H)].
  - left. split; [exact E|]. intros [i Hi]. exact (H i Hi).
  - right. exists i. split; [rewrite E; lia | exact H].
Qed.

Lemma indexOf_leftmost (s p : jsstring) i :
  leftmostAt p s i -> indexOf s p = Z.of_nat i.
Proof.
  intros H. destruct (indexOf_cases s p) as [[_ N] | (j & E & Hj)].
  - destruct N. exists i. apply H.
  - rewrite E. f_equal. eapply leftmostAt_unique; eauto.
Qed.

Lemma indexOf_absent (s p : jsstring) :
  ~ Contains s p -> indexOf s p = (-1)%Z.
Proof.
  intros N. destruct (indexOf_cases s p) as [[E _] | (j & _ & Hj & _)]; auto.
  destruct N. exists j; exact Hj.
Qed.

Lemma includes_iff (s p : jsstring) :
  includes s p = true <-> Contains s p.
Proof.
  unfold includes.
  destruct (indexOf_cases s p) as [[E N] | (i & E & H & _)]; rewrite E.
  - simpl. split; [discriminate | intros C; destruct (N C)].
  - replace (Z.of_nat i =? -1)%Z with false by (symmetry; apply Z.eqb_neq; lia).
    simpl. split; [intros _; exists i; exact H | reflexivity].
Qed.

Lemma Contains_iff (s p : jsstring) :
  Contains s p <-> exists pre post, s = pre ++ p ++ post.
Proof.
  unfold Contains, occursAt. split.
  - intros (i & pre & post & E & _). eauto.
  - intros (pre & post & E). exists (length pre), pre, post. auto.
Qed.

Lemma splitLines_not_nil (s : jsstring) : splitLines s <> [].
Proof.
  induction s as [|c s IH]; simpl; [discriminate|].
  destruct (c =? NL)%N; [discriminate|].
  destruct (splitLines s); [contradiction | discriminate].
Qed.

Lemma length_splitLines (s : jsstring) :
  length (splitLines s) = S (countNL s).
Proof.
  induction s as [|c s IH]; simpl; [reflexivity|].
  destruct (c =? NL)%N; simpl; [congruence|].
  pose proof (splitLines_not_nil s) as N.
  destruct (splitLines s); [contradiction | exact IH].
Qed.

Lemma lineCount_countNL (s : jsstring) :
  lineCount s = (Z.of_nat (countNL s) + 1)%Z.
Proof. unfold lineCount. rewrite length_splitLines. lia. Qed.

(** Splitting loses nothing: the pieces joined by line feeds are the string,
    and no piece holds a line feed. *)
Lemma joinLines_splitLines (s : jsstring) : joinLines (splitLines s) = s.
Proof.
  induction s as [|c s IH]; simpl; [reflexivity|].
  destruct (N.eqb_spec c NL) as [-> | Hc].
  - pose proof (splitLines_not_nil s) as N.
    simpl. destruct (splitLines s); [contradiction|]. simpl in *.
    rewrite IH; reflexivity.
  - pose proof (splitLines_not_nil s) as N.
    destruct (splitLines s) as [|l ls]; [contradiction|].
    destruct ls; simpl in *; rewrite <- IH; reflexivity.
Qed.

Lemma splitLines_no_NL (s : jsstring) :
  Forall (fun l => ~ In NL l) (splitLines s).
Proof.
  induction s as [|c s IH]; simpl.
  - constructor; [intros []|constructor].
  - destruct (N.eqb_spec c NL) as [-> | Hc].
    + constructor; [intros [] | exact IH].
    + destruct (splitLines s) as [|l ls].
      * constructor; [|constructor]. intros [E | []]; congruence.
      * inversion IH; subst. constructor; [|assumption].
        intros [E | H]; [congruence | auto].
Qed.

Lemma slice_prefix (s : jsstring) (e : Z) :
  (0 <= e)%Z -> slice s 0 e = firstn (Z.to_nat e) s.
Proof.
  intros He. unfold slice, sliceBound.
  replace (0 <? 0)%Z with false by reflexivity.
  replace (e <? 0)%Z with false by (symmetry; apply Z.ltb_ge; lia).
  rewrite (Z.min_l 0) by lia. simpl skipn. rewrite Z.sub_0_r.
  destruct (Z.le_gt_cases e (Z.of_nat (length s))).
  - rewrite Z.min_l by lia. reflexivity.
  - rewrite Z.min_r by lia. rewrite Nat2Z.id.
    rewrite firstn_all. symmetry. apply firstn_all2.
    apply Nat2Z.inj_le. rewrite Z2Nat.id; lia.
Qed.

Lemma stripWhiteSpace_clean (s : jsstring) :
  Forall (fun c => isWhiteSpace c = false) (stripWhiteSpace s).
Proof.
  apply Forall_forall. intros c H. apply filter_In in H as [_ H].
  apply negb_true_iff in H; exact H.
Qed.

Lemma stripWhiteSpace_app (s t : jsstring) :
  stripWhiteSpace (s ++ t) = stripWhiteSpace s ++ stripWhiteSpace t.
Proof. apply filter_app. Qed.

(* ================================================================== *)
(** ** Step filter *)
(* ================================================================== *)

Lemma keepStep_iff (s : LearnerStep) : keepStep s = true <-> survives s.
Proof.
  unfold keepStep, survives; cbv zeta.
  rewrite <- !startsWith_iff, <- endsWith_iff.
  destruct (Nat.eqb_spec (length (trim (code s))) 0) as [E | E].
  - split; [discriminate | intros [H _]; contradiction].
  - destruct (startsWith (trim (code s)) HTML_COMMENT_OPEN),
             (endsWith (trim (code s)) HTML_COMMENT_CLOSE),
             (startsWith (trim (code s)) LINE_COMMENT),
             (startsWith (trim (code s)) BLOCK_COMMENT); simpl;
      (split; [try discriminate; intros _; repeat split; auto; discriminate
              | try reflexivity; intros (_ & A & B & C & D); congruence]).
Qed.

Lemma filter_Subseq {A : Type} (f : A -> bool) (l : list A) :
  Subseq (filter f l) l.
Proof.
  induction l as [|x l IH]; simpl; [constructor|].
  destruct (f x); constructor; exact IH.
Qed.

Lemma filter_idem {A : Type} (f : A -> bool) (l : list A) :
  filter f (filter f l) = filter f l.
Proof.
  induction l as [|x l IH]; simpl; [reflexivity|].
  destruct (f x) eqn:E; simpl; [rewrite E, IH | rewrite IH]; reflexivity.
Qed.

(** C2: filtering a step list twice gives the same list as filtering it
    once. *)
Theorem filterSteps_idempotent (steps : list LearnerStep) :
  filterSteps (filterSteps steps) = filterSteps steps.
Proof. unfold filterSteps. apply filter_idem. Qed.

(** C3: a step is in the filtered list exactly when it is in the input and
    its trimmed code is non-empty, does not start with the HTML comment
    opener, does not end with the HTML comment closer and does not start with
    a line or block comment opener; the filtered list is a subsequence of the
    input, every surviving step kept in its place; the comment step and the
    empty step of Scenario C are dropped. *)
Theorem filterSteps_survivors (steps : list LearnerStep) :
  Subseq (filterSteps steps) steps
  /\ (forall s, In s (filterSteps steps) <-> In s steps /\ survives s)
  /\ (forall l1 s l2, steps = l1 ++ s :: l2 ->
        (survives s ->
         filterSteps steps = filterSteps l1 ++ s :: filterSteps l2)
        /\ (~ survives s ->
            filterSteps steps = filterSteps l1 ++ filterSteps l2))
  /\ filterSteps
       (step_of "<!-- comment -->" :: step_of "" :: steps)
     = filterSteps steps.
Proof.
  unfold filterSteps. split; [apply filter_Subseq|]. split; [|split].
  - intros s. rewrite filter_In, keepStep_iff. reflexivity.
  - intros l1 s l2 ->. rewrite filter_app. simpl.
    destruct (keepStep s) eqn:E; split; intros H; try reflexivity.
    + apply keepStep_iff in E. contradiction.
    + apply keepStep_iff in H. congruence.
  - reflexivity.
Qed.

(** Witness of C3: a step list with a comment, an empty step and two steps
    of code. *)
Lemma filterSteps_survivors_witness :
  let steps := [step_of "<!-- comment -->"; step_of "<h1>Hi</h1>";
                step_of ""; step_of "  <p>ok</p>  "] in
  filterSteps steps = [step_of "<h1>Hi</h1>"; step_of "  <p>ok</p>  "].
Proof.
  intros steps.
  destruct (filterSteps_survivors steps) as (_ & _ & H & _).
  destruct (H [step_of "<!-- comment -->"] (step_of "<h1>Hi</h1>")
              [step_of ""; step_of "  <p>ok</p>  "] eq_refl) as [K _].
  rewrite K; [reflexivity|].
  apply keepStep_iff. reflexivity.
Defined.

(* ================================================================== *)
(** ** Progress tracker *)
(* ================================================================== *)

Section Tracker.

Variable lessonId : jsstring.
Variable steps : list LearnerStep.

Local Abbreviation N := (length steps).

(** The three outcomes of one run of the effect. *)
Lemma validate_idle (idx : nat) (r : render) :
  learnerModeActive r = false \/ (N <= idx)%nat ->
  validate lessonId steps idx r = (idx, []).
Proof.
  unfold validate. intros [-> | H]; [reflexivity|].
  apply Nat.leb_le in H. rewrite H, orb_true_r. reflexivity.
Qed.

Lemma validate_stay (idx : nat) (r : render) (step : LearnerStep) :
  nth_error steps idx = Some step -> ~ matches r step ->
  validate lessonId steps idx r = (idx, []).
Proof.
  unfold validate, matches. intros E H. rewrite E.
  rewrite <- includes_iff in H. apply not_true_is_false in H. rewrite H.
  destruct (negb _ || _); reflexivity.
Qed.

Lemma validate_advance (idx : nat) (r : render) (step : LearnerStep) :
  learnerModeActive r = true ->
  nth_error steps idx = Some step -> matches r step ->
  validate lessonId steps idx r =
    (S idx,
     SetLearnerFeedback ADVANCED_MSG :: ClearFeedbackAfter 2000 ::
     (if (N <=? idx + 1)%nat then
        SetCheckResult true COMPLETED_MSG :: OnComplete lessonId (buffer r) ::
        (if (innerWidth r <? 768)%Z then [ShowPreviewTab] else [])
      else [])).
Proof.
  unfold validate, matches. intros A E H.
  assert (L : (idx < N)%nat) by (apply nth_error_Some; congruence).
  apply Nat.leb_gt in L. rewrite A, L, E. simpl.
  apply includes_iff in H. rewrite H. reflexivity.
Qed.

(** Every run of the effect is one of the three. *)
Lemma validate_cases (idx : nat) (r : render) :
  validate lessonId steps idx r = (idx, [])
  \/ exists step,
       learnerModeActive r = true /\ nth_error steps idx = Some step
       /\ matches r step
       /\ fst (validate lessonId steps idx r) = S idx.
Proof.
  destruct (learnerModeActive r) eqn:A;
    [|left; apply validate_idle; auto].
  destruct (nth_error steps idx) as [step|] eqn:E.
  - destruct (includes (stripWhiteSpace (buffer r))
                (stripWhiteSpace (code step))) eqn:I.
    + right. exists step. apply includes_iff in I.
      rewrite (validate_advance idx r step A E I). auto.
    + left. apply (validate_stay idx r step E). unfold matches.
      rewrite <- includes_iff. congruence.
  - left. apply validate_idle. right. apply nth_error_None; exact E.
Qed.

Lemma validate_bounds (idx : nat) (r : render) :
  (idx <= fst (validate lessonId steps idx r) <= S idx)%nat.
Proof.
  destruct (validate_cases idx r) as [-> | (step & _ & _ & _ & ->)];
    simpl; lia.
Qed.

Lemma validate_below (idx : nat) (r : render) :
  fst (validate lessonId steps idx r) <> idx -> (idx < N)%nat.
Proof.
  destruct (validate_cases idx r) as [-> | (step & _ & E & _ & _)];
    simpl; [congruence|].
  intros _. apply nth_error_Some. congruence.
Qed.

Lemma runValidation_cons (idx : nat) (r : render) (rs : list render) :
  runValidation lessonId steps idx (r :: rs) =
    (fst (runValidation lessonId steps
            (fst (validate lessonId steps idx r)) rs),
     snd (validate lessonId steps idx r)
     ++ snd (runValidation lessonId steps
               (fst (validate lessonId steps idx r)) rs)).
Proof.
  simpl. destruct (validate lessonId steps idx r) as [i evs]. simpl.
  destruct (runValidation lessonId steps i rs); reflexivity.
Qed.

Lemma runValidation_app (idx : nat) (rs1 rs2 : list render) :
  fst (runValidation lessonId steps idx (rs1 ++ rs2)) =
  fst (runValidation lessonId steps
         (fst (runValidation lessonId steps idx rs1)) rs2).
Proof.
  revert idx; induction rs1 as [|r rs1 IH]; intros idx; [reflexivity|].
  rewrite <- app_comm_cons, !runValidation_cons. simpl. apply IH.
Qed.

Lemma runValidation_ge (idx : nat) (rs : list render) :
  (idx <= fst (runValidation lessonId steps idx rs))%nat.
Proof.
  revert idx; induction rs as [|r rs IH]; intros idx; [simpl; lia|].
  rewrite runValidation_cons. simpl.
  pose proof (validate_bounds idx r).
  pose proof (IH (fst (validate lessonId steps idx r))). lia.
Qed.

Lemma runValidation_terminal (idx : nat) (rs : list render) :
  (N <= idx)%nat -> runValidation lessonId steps idx rs = (idx, []).
Proof.
  intros H. induction rs as [|r rs IH]; [reflexivity|].
  rewrite runValidation_cons, validate_idle by auto. simpl.
  rewrite IH. reflexivity.
Qed.

Lemma completions_app (evs evs' : list event) :
  completions (evs ++ evs') = (completions evs + completions evs')%nat.
Proof. unfold completions. rewrite filter_app, length_app. reflexivity. Qed.

Lemma validate_completions (idx : nat) (r : render) :
  completions (snd (validate lessonId steps idx r)) =
  if (idx <? N)%nat && (fst (validate lessonId steps idx r) =? N)%nat
  then 1%nat else 0%nat.
Proof.
  destruct (validate_cases idx r) as [E | (step & A & E & M & _)].
  - rewrite E. simpl.
    destruct (Nat.ltb_spec idx N), (Nat.eqb_spec idx N);
      simpl; try reflexivity; lia.
  - assert (L : (idx < N)%nat) by (apply nth_error_Some; congruence).
    rewrite (validate_advance idx r step A E M). cbn [fst snd].
    destruct (Nat.ltb_spec idx N); [|lia]. cbn [andb].
    destruct (Nat.leb_spec N (idx + 1)), (Nat.eqb_spec (S idx) N);
      try lia; [|reflexivity].
    unfold completions; simpl. destruct (innerWidth r <? 768)%Z; reflexivity.
Qed.

Lemma runValidation_completions (idx : nat) (rs : list render) :
  completions (snd (runValidation lessonId steps idx rs)) =
  if (idx <? N)%nat && (fst (runValidation lessonId steps idx rs) =? N)%nat
  then 1%nat else 0%nat.
Proof.
  revert idx; induction rs as [|r rs IH]; intros idx.
  - simpl. destruct (Nat.ltb_spec idx N), (Nat.eqb_spec idx N);
      simpl; try reflexivity; lia.
  - rewrite runValidation_cons. cbn [fst snd].
    rewrite completions_app, validate_completions, IH.
    pose proof (validate_bounds idx r) as B.
    pose proof (validate_below idx r) as L.
    set (i := fst (validate lessonId steps idx r)) in *.
    pose proof (runValidation_ge i rs) as G.
    destruct (Nat.le_gt_cases N i) as [T | T].
    + rewrite (runValidation_terminal i rs T) in *. cbn [fst snd] in *.
      destruct (Nat.ltb_spec idx N), (Nat.eqb_spec i N),
        (Nat.ltb_spec i N); simpl; try reflexivity; lia.
    + set (j := fst (runValidation lessonId steps i rs)) in *.
      destruct (Nat.ltb_spec idx N), (Nat.eqb_spec i N),
        (Nat.ltb_spec i N), (Nat.eqb_spec j N);
        simpl; try reflexivity; lia.
Qed.

End Tracker.

(** C1: in a non-terminal state, with learner mode active, one run of the
    validation effect moves the index to the next one exactly when the
    buffer with its white space removed holds the current step's code with
    its white space removed as a substring; when it does not, the index
    stays and nothing is emitted. *)
Theorem validate_advances_iff_contains
    (lessonId : jsstring) (steps : list LearnerStep) (idx : nat) (r : render) :
  learnerModeActive r = true ->
  (idx < length steps)%nat ->
  exists step,
    nth_error steps idx = Some step
    /\ (fst (validate lessonId steps idx r) = S idx
        <-> exists pre post,
              stripWhiteSpace (buffer r)
              = pre ++ stripWhiteSpace (code step) ++ post)
    /\ ((~ exists pre post,
              stripWhiteSpace (buffer r)
              = pre ++ stripWhiteSpace (code step) ++ post)
        -> validate lessonId steps idx r = (idx, [])).
Proof.
  intros A L.
  destruct (nth_error steps idx) as [step|] eqn:E;
    [|apply nth_error_None in E; lia].
  exists step. split; [reflexivity|].
  rewrite <- Contains_iff. fold (matches r step). split.
  - split.
    + intros H.
      destruct (validate_cases lessonId steps idx r)
        as [K | (step' & _ & E' & M & _)].
      * rewrite K in H. simpl in H. lia.
      * congruence.
    + intros M. rewrite (validate_advance lessonId steps idx r step A E M).
      reflexivity.
  - apply validate_stay; exact E.
Qed.

(** Witness of C1: Scenario B at index 0, the buffer holding the first
    step's text with other spacing. *)
Lemma validate_advances_iff_contains_witness :
  exists step,
    nth_error scenarioB_steps 0 = Some step
    /\ (fst (validate (lit "lesson-1") scenarioB_steps 0
               (mkRender true (lit "p { color :red; }") 1024)) = 1%nat
        <-> exists pre post,
              stripWhiteSpace (lit "p { color :red; }")
              = pre ++ stripWhiteSpace (code step) ++ post)
    /\ ((~ exists pre post,
              stripWhiteSpace (lit "p { color :red; }")
              = pre ++ stripWhiteSpace (code step) ++ post)
        -> validate (lit "lesson-1") scenarioB_steps 0
             (mkRender true (lit "p { color :red; }") 1024) = (0%nat, [])).
Proof.
  apply (validate_advances_iff_contains (lit "lesson-1") scenarioB_steps 0
           (mkRender true (lit "p { color :red; }") 1024)).
  - reflexivity.
  - simpl; lia.
Defined.

(** C5: over any sequence of runs of the validation effect with the step
    list fixed, whatever the buffers are, the index never goes down: the
    index after a longer sequence is at least the index after any of its
    beginnings. *)
Theorem currentStepIndex_non_decreasing
    (lessonId : jsstring) (steps : list LearnerStep) (idx : nat)
    (rs1 rs2 : list render) :
  (idx <= fst (runValidation lessonId steps idx rs1)
       <= fst (runValidation lessonId steps idx (rs1 ++ rs2)))%nat.
Proof.
  split; [apply runValidation_ge|].
  rewrite runValidation_app. apply runValidation_ge.
Qed.

(** C6: at index N, the number of steps, a run of the effect and any
    sequence of runs leave the index at N and emit nothing; the completion
    callback fires in the run that takes the index from below N to N and in
    no other, so once in a sequence of runs that reaches N from below and
    never otherwise. *)
Theorem terminal_state_stable_complete_once
    (lessonId : jsstring) (steps : list LearnerStep) :
  (forall r, validate lessonId steps (length steps) r = (length steps, []))
  /\ (forall rs,
        runValidation lessonId steps (length steps) rs = (length steps, []))
  /\ (forall idx r,
        completions (snd (validate lessonId steps idx r)) =
        if (idx <? length steps)%nat
           && (fst (validate lessonId steps idx r) =? length steps)%nat
        then 1%nat else 0%nat)
  /\ (forall idx rs,
        completions (snd (runValidation lessonId steps idx rs)) =
        if (idx <? length steps)%nat
           && (fst (runValidation lessonId steps idx rs) =? length steps)%nat
        then 1%nat else 0%nat).
Proof.
  split; [|split; [|split]].
  - intros r. apply validate_idle. right. apply Nat.le_refl.
  - intros rs. apply runValidation_terminal. apply Nat.le_refl.
  - apply validate_completions.
  - apply runValidation_completions.
Qed.

Lemma runValidation_pasted
    (lessonId : jsstring) (steps : list LearnerStep) (rs : list render) :
  Forall (fun r => learnerModeActive r = true
                   /\ forall step, In step steps -> matches r step) rs ->
  forall idx, (idx <= length steps)%nat ->
  fst (runValidation lessonId steps idx rs)
  = Nat.min (idx + length rs) (length steps).
Proof.
  induction 1 as [|r rs [A M] _ IH]; intros idx L.
  - simpl. lia.
  - rewrite runValidation_cons. cbn [fst length].
    destruct (nth_error steps idx) as [step|] eqn:E.
    + assert (idx < length steps)%nat by (apply nth_error_Some; congruence).
      rewrite (validate_advance lessonId steps idx r step A E
                 (M step (nth_error_In _ _ E))). cbn [fst].
      rewrite IH by lia. lia.
    + apply nth_error_None in E.
      rewrite validate_idle by auto. cbn [fst].
      rewrite runValidation_terminal by auto. simpl. lia.
Qed.

(** C10: one run of the validation effect raises the index by at most one,
    and a sequence of runs by at most its length; when every buffer already
    holds the normalized code of every step (the whole solution pasted), each
    run still advances one step only, so that k runs from index idx end at
    idx + k, capped at the number of steps. *)
Theorem validate_one_step_per_run
    (lessonId : jsstring) (steps : list LearnerStep) :
  (forall idx r,
     (idx <= fst (validate lessonId steps idx r) <= idx + 1)%nat)
  /\ (forall idx rs,
        (fst (runValidation lessonId steps idx rs) <= idx + length rs)%nat)
  /\ (forall idx rs,
        (idx <= length steps)%nat ->
        Forall (fun r =>
                  learnerModeActive r = true
                  /\ forall step, In step steps ->
                       exists pre post,
                         stripWhiteSpace (buffer r)
                         = pre ++ stripWhiteSpace (code step) ++ post) rs ->
        fst (runValidation lessonId steps idx rs)
        = Nat.min (idx + length rs) (length steps)).
Proof.
  split; [|split].
  - intros idx r. pose proof (validate_bounds lessonId steps idx r). lia.
  - intros idx rs. revert idx; induction rs as [|r rs IH]; intros idx.
    + simpl. lia.
    + rewrite runValidation_cons. cbn [fst length].
      pose proof (validate_bounds lessonId steps idx r).
      pose proof (IH (fst (validate lessonId steps idx r))). lia.
  - intros idx rs L H. apply runValidation_pasted; [|exact L].
    eapply Forall_impl; [|exact H]. intros r [A M]. split; [exact A|].
    intros step I. apply Contains_iff. exact (M step I).
Qed.

(** Witness of C10: Scenario B with both steps already in the buffer; one
    run reaches index 1, a second one index 2. *)
Lemma validate_one_step_per_run_witness :
  let r := mkRender true (lit "h1 { color: red; font-size: 2em; }") 1024 in
  fst (runValidation (lit "lesson-1") scenarioB_steps 0 [r]) = 1%nat
  /\ fst (runValidation (lit "lesson-1") scenarioB_steps 0 [r; r]) = 2%nat.
Proof.
  intros r.
  destruct (validate_one_step_per_run (lit "lesson-1") scenarioB_steps)
    as (_ & _ & H).
  assert (F : Forall (fun r =>
                  learnerModeActive r = true
                  /\ forall step, In step scenarioB_steps ->
                       exists pre post,
                         stripWhiteSpace (buffer r)
                         = pre ++ stripWhiteSpace (code step) ++ post) [r; r]).
  { assert (P : learnerModeActive r = true
                /\ forall step, In step scenarioB_steps ->
                     exists pre post,
                       stripWhiteSpace (buffer r)
                       = pre ++ stripWhiteSpace (code step) ++ post).
    { split; [reflexivity|]. intros step [<- | [<- | []]].
      - exists (lit "h1{"), (lit "font-size:2em;}"). reflexivity.
      - exists (lit "h1{color:red;"), (lit "}"). reflexivity. }
    repeat constructor; apply P. }
  split.
  - apply (H 0%nat [r]); [simpl; lia|].
    inversion F; subst. constructor; [assumption | constructor].
  - apply (H 0%nat [r; r]); [simpl; lia | exact F].
Defined.

(** Scenario A: one step, the buffer typed in full: the index goes from 0
    to 1 and the completion callback fires. *)
Example scenarioA :
  validate (lit "lesson-1") [mkStep (lit "<h1>Hi</h1>") (lit "") (Some [])] 0
    (mkRender true (lit "<body> <h1>Hi</h1> </body>") 1024)
  = (1%nat,
     [SetLearnerFeedback ADVANCED_MSG; ClearFeedbackAfter 2000;
      SetCheckResult true COMPLETED_MSG;
      OnComplete (lit "lesson-1") (lit "<body> <h1>Hi</h1> </body>")]).
Proof. reflexivity. Qed.

(** Scenario B: with the first step only in the buffer the index stops at 1
    however often the effect runs; with the second one added it reaches 2. *)
Example scenarioB :
  let first := mkRender true (lit "p { color: red; }") 1024 in
  let both := mkRender true (lit "p { color: red; font-size: 2em; }") 1024 in
  fst (runValidation (lit "lesson-1") scenarioB_steps 0 [first; first]) = 1%nat
  /\ fst (runValidation (lit "lesson-1") scenarioB_steps 0 [first; both])
     = 2%nat.
Proof. split; reflexivity. Qed.

(* ================================================================== *)
(** ** Insertion locator *)
(* ================================================================== *)

Lemma markerOrEnd_marker (buf : jsstring) (i : nat) :
  leftmostAt INSERTION_MARKER buf i ->
  markerOrEnd buf = Z.of_nat (countNL (firstn i buf)).
Proof.
  intros H. unfold markerOrEnd. cbv zeta.
  rewrite (indexOf_leftmost buf INSERTION_MARKER i H).
  replace (Z.of_nat i =? -1)%Z with false by (symmetry; apply Z.eqb_neq; lia).
  cbn [negb]. rewrite slice_prefix by lia.
  rewrite lineCount_countNL, Nat2Z.id. lia.
Qed.

Lemma markerOrEnd_end (buf : jsstring) :
  ~ Contains buf INSERTION_MARKER -> markerOrEnd buf = lineCount buf.
Proof.
  intros H. unfold markerOrEnd. cbv zeta.
  rewrite (indexOf_absent buf INSERTION_MARKER H). reflexivity.
Qed.

Lemma markerOrEnd_nonneg (buf : jsstring) : (0 <= markerOrEnd buf)%Z.
Proof.
  destruct (indexOf_cases buf INSERTION_MARKER) as [[_ N] | (i & _ & H)].
  - rewrite (markerOrEnd_end buf N). unfold lineCount. lia.
  - rewrite (markerOrEnd_marker buf i H). lia.
Qed.

Section Locator.

Variable steps : list LearnerStep.
Variable idx : nat.
Variable step : LearnerStep.
Hypothesis Hstep : nth_error steps idx = Some step.

Lemma locate_empty : getInsertionLineIndex steps idx [] = Some 0%Z.
Proof. unfold getInsertionLineIndex. rewrite Hstep. reflexivity. Qed.

(** The context branch: the prefix of the buffer that is cut ends
    [length ctx] code units after the first occurrence of the trimmed
    context, [ctx] being the context as given. *)
Lemma locate_context (buf ctx : jsstring) (i : nat) :
  buf <> [] -> context step = Some ctx -> ctx <> [] ->
  leftmostAt (trim ctx) buf i ->
  getInsertionLineIndex steps idx buf
  = Some (Z.of_nat (countNL (firstn (i + length ctx) buf)) + 1)%Z.
Proof.
  intros B C Hc L. unfold getInsertionLineIndex. rewrite Hstep, C.
  destruct buf as [|b buf']; [contradiction|].
  destruct ctx as [|c ctx']; [contradiction|]. cbv zeta.
  rewrite (indexOf_leftmost _ _ i L).
  replace (Z.of_nat i =? -1)%Z with false
    by (symmetry; apply Z.eqb_neq; lia).
  cbn [negb]. rewrite slice_prefix by lia.
  rewrite lineCount_countNL, <- Nat2Z.inj_add, Nat2Z.id. reflexivity.
Qed.

(** Without the context branch the result is that of the marker search. *)
Lemma locate_no_context (buf : jsstring) :
  buf <> [] -> ~ contextApplies buf step ->
  getInsertionLineIndex steps idx buf = Some (markerOrEnd buf).
Proof.
  intros B NC. unfold getInsertionLineIndex. rewrite Hstep.
  destruct buf as [|b buf']; [contradiction|].
  destruct (context step) as [[|c ctx']|] eqn:C; try reflexivity.
  cbv zeta.
  destruct (indexOf_cases (b :: buf') (trim (c :: ctx')))
    as [[E _] | (i & _ & H & _)].
  - rewrite E. reflexivity.
  - destruct NC. exists (c :: ctx'). split; [exact C|].
    split; [discriminate|]. exists i; exact H.
Qed.

Lemma locate_some_nonneg (buf : jsstring) :
  exists n, getInsertionLineIndex steps idx buf = Some n /\ (0 <= n)%Z.
Proof.
  destruct buf as [|b buf'].
  - exists 0%Z. split; [apply locate_empty | lia].
  - destruct (context step) as [[|c ctx']|] eqn:C.
    + exists (markerOrEnd (b :: buf')).
      split; [|apply markerOrEnd_nonneg].
      apply locate_no_context; [discriminate|].
      intros (ctx & E & Hc & _). congruence.
    + destruct (indexOf_cases (b :: buf') (trim (c :: ctx')))
        as [[_ NC] | (i & _ & H)].
      * exists (markerOrEnd (b :: buf')).
        split; [|apply markerOrEnd_nonneg].
        apply locate_no_context; [discriminate|].
        intros (ctx & E & _ & K). congruence.
      * eexists. split.
        -- apply (locate_context (b :: buf') (c :: ctx') i);
             [discriminate | exact C | discriminate | exact H].
        -- lia.
    + exists (markerOrEnd (b :: buf')).
      split; [|apply markerOrEnd_nonneg].
      apply locate_no_context; [discriminate|].
      intros (ctx & E & _). congruence.
Qed.

End Locator.

Lemma indexOf_found (s p : jsstring) (i : nat) :
  indexOf s p = Z.of_nat i -> leftmostAt p s i.
Proof.
  intros E. destruct (indexOf_cases s p) as [[E' _] | (j & E' & H)].
  - rewrite E' in E. lia.
  - rewrite E' in E. apply Nat2Z.inj in E. subst j. exact H.
Qed.

Lemma indexOf_missing (s p : jsstring) :
  indexOf s p = (-1)%Z -> ~ Contains s p.
Proof.
  intros E. destruct (indexOf_cases s p) as [[_ N] | (j & E' & _)]; auto.
  rewrite E' in E. lia.
Qed.

Lemma Contains_leftmost (s p : jsstring) :
  Contains s p -> exists i, leftmostAt p s i.
Proof.
  intros C. destruct (indexOf_cases s p) as [[_ N] | (i & _ & H)].
  - contradiction.
  - exists i; exact H.
Qed.

Lemma no_context_not_applies (buf : jsstring) (step : LearnerStep) :
  context step = None -> ~ contextApplies buf step.
Proof. intros E (ctx & C & _). congruence. Qed.




(** The context is searched trimmed but measured as given: with white space
    around it the cut runs past the end of the occurrence.  Here the context
    "  <p>" makes the locator answer 3 where the context "<p>" gives 2. *)
Lemma getInsertionLineIndex_untrimmed_length :
  let buf := lit "<div>" ++ NL :: lit "  <p>" ++ NL :: lit "</p>"
             ++ NL :: lit "</div>" in
  getInsertionLineIndex
    [mkStep (lit "text") (lit "") (Some (lit "  <p>"))] 0 buf = Some 3%Z
  /\ getInsertionLineIndex
       [mkStep (lit "text") (lit "") (Some (lit "<p>"))] 0 buf = Some 2%Z.
Proof. split; reflexivity. Qed.

(** C7: for a step at the current index the locator always answers a number
    that is not negative, 0 for the empty buffer; its searches are leftmost
    literal ones: when the trimmed context of the step occurs in a non-empty
    buffer the cut is made from its first occurrence, and when the context
    branch does not apply and the marker occurs, the answer counts the line
    feeds before its first occurrence. *)
Theorem getInsertionLineIndex_total
    (steps : list LearnerStep) (idx : nat) (step : LearnerStep)
    (buf : jsstring) :
  nth_error steps idx = Some step ->
  (exists n, getInsertionLineIndex steps idx buf = Some n /\ (0 <= n)%Z)
  /\ getInsertionLineIndex steps idx [] = Some 0%Z
  /\ (forall ctx,
        buf <> [] -> context step = Some ctx -> ctx <> [] ->
        Contains buf (trim ctx) ->
        exists i,
          leftmostAt (trim ctx) buf i
          /\ indexOf buf (trim ctx) = Z.of_nat i
          /\ getInsertionLineIndex steps idx buf
             = Some (Z.of_nat (countNL (firstn (i + length ctx) buf)) + 1)%Z)
  /\ (~ contextApplies buf step -> Contains buf INSERTION_MARKER ->
      exists i,
        leftmostAt INSERTION_MARKER buf i
        /\ indexOf buf INSERTION_MARKER = Z.of_nat i
        /\ getInsertionLineIndex steps idx buf
           = Some (Z.of_nat (countNL (firstn i buf)))).
Proof.
  intros Hs. split; [|split; [|split]].
  - apply (locate_some_nonneg steps idx step Hs).
  - apply (locate_empty steps idx step Hs).
  - intros ctx B C Hc K. destruct (Contains_leftmost _ _ K) as [i L].
    exists i. split; [exact L|]. split; [apply indexOf_leftmost; exact L|].
    apply (locate_context steps idx step Hs buf ctx i); auto.
  - intros NC K. destruct (Contains_leftmost _ _ K) as [i L].
    exists i. split; [exact L|]. split; [apply indexOf_leftmost; exact L|].
    assert (B : buf <> []).
    { intros ->. destruct L as [O _].
      apply occursAt_nil_inv in O as [O _]. discriminate. }
    rewrite (locate_no_context steps idx step Hs buf B NC).
    rewrite (markerOrEnd_marker buf i L). reflexivity.
Qed.

(** Witness of C7: a step without context, on the buffer of Scenario D and
    on the empty buffer. *)
Lemma getInsertionLineIndex_total_witness :
  (exists n, getInsertionLineIndex [step_of "<h1>Hi</h1>"] 0 scenarioD_buffer
             = Some n /\ (0 <= n)%Z)
  /\ getInsertionLineIndex [step_of "<h1>Hi</h1>"] 0 [] = Some 0%Z.
Proof.
  destruct (getInsertionLineIndex_total [step_of "<h1>Hi</h1>"] 0
              (step_of "<h1>Hi</h1>") scenarioD_buffer eq_refl)
    as (H1 & H2 & _).
  split; [exact H1 | exact H2].
Defined.

(* ================================================================== *)
(** ** Scroll target *)
(* ================================================================== *)

Lemma scrollTop_nonneg (line containerHeight : Z) :
  0 <= scrollTop line containerHeight.
Proof. unfold scrollTop. apply Q.le_max_l. Qed.

(** The scroll effect highlights the located line and, given a container,
    scrolls to the offset computed for it. *)
Lemma scrollEffect_active (steps : list LearnerStep) (idx : nat)
    (buf : jsstring) (line h : Z) :
  getInsertionLineIndex steps idx buf = Some line ->
  scrollEffect true steps idx buf (Some h)
  = (Some line, Some (scrollTop line h)).
Proof. unfold scrollEffect. intros ->. reflexivity. Qed.

Lemma Qmax_inject_Z (a b : Z) :
  Qmax (inject_Z a) (inject_Z b) == inject_Z (Z.max a b).
Proof.
  destruct (Z.le_ge_cases a b) as [H | H].
  - rewrite Z.max_r by exact H. apply Q.max_r. rewrite <- Zle_Qle. exact H.
  - rewrite Z.max_l by exact H. apply Q.max_l. rewrite <- Zle_Qle. exact H.
Qed.

Lemma half_of_even (h : Z) :
  (h mod 2 = 0)%Z -> inject_Z h / 2 == inject_Z (h / 2).
Proof.
  intros E. pose proof (Z.div_mod h 2 ltac:(lia)) as D.
  rewrite E, Z.add_0_r in D.
  rewrite D at 1. rewrite inject_Z_mult. field.
Qed.

(** For a container of even height the offset is an integer, the one that
    integer division gives. *)
Lemma scrollTop_even_height (line containerHeight : Z) :
  (containerHeight mod 2 = 0)%Z ->
  scrollTop line containerHeight
  == inject_Z (Z.max 0 (line * LINE_HEIGHT + 24 - containerHeight / 2)).
Proof.
  intros E. unfold scrollTop. cbv zeta.
  rewrite (half_of_even containerHeight E).
  unfold Qminus. rewrite <- inject_Z_opp, <- inject_Z_plus.
  change 0 with (inject_Z 0). apply Qmax_inject_Z.
Qed.

(** C8 (amended): the line height and the top padding are no inputs of the
    computation, both are the constant 24 of the code; for every line index
    and viewport height the scroll offset is
    max(0, 24 + lineIndex * 24 - viewportHeight / 2), the division exact (a
    viewport of odd height gives a half); for line 10 and a viewport of 600
    it is 0. *)
Theorem scrollTop_formula (lineIndex viewportHeight : Z) :
  scrollTop lineIndex viewportHeight
  == Qmax 0 (24 + inject_Z lineIndex * 24 - inject_Z viewportHeight / 2)
  /\ scrollTop 10 600 == 0
  /\ scrollTop 20 601 == 407 # 2.
Proof.
  split; [|split; reflexivity].
  unfold scrollTop, LINE_HEIGHT. cbv zeta.
  apply Q.max_compat; [reflexivity|].
  rewrite inject_Z_plus, inject_Z_mult.
  change (inject_Z 24) with 24. ring.
Qed.

(** C8 as stated fails: the offset does not follow a line height or a top
    padding other than 24.  For line 1 and a viewport of height 0 the code
    computes 48, where the formula of the claim with line height 10 and top
    padding 0 gives 10. *)
Lemma scrollTop_formula_counterexample :
  scrollTop 1 0 == 48
  /\ Qmax 0 (inject_Z (0 + 1 * 10) - inject_Z 0 / 2) == 10
  /\ ~ scrollTop 1 0 == Qmax 0 (inject_Z (0 + 1 * 10) - inject_Z 0 / 2).
Proof.
  split; [reflexivity|]. split; [reflexivity|]. discriminate.
Qed.

(* ================================================================== *)
(** ** Step source fallback *)
(* ================================================================== *)

Lemma trimStart_nil_iff (s : jsstring) :
  trimStart s = [] <-> forallb isWhiteSpace s = true.
Proof.
  induction s as [|c s IH]; simpl; [split; reflexivity|].
  destruct (isWhiteSpace c); simpl; [exact IH|].
  split; discriminate.
Qed.

Lemma forallb_rev {A : Type} (f : A -> bool) (l : list A) :
  forallb f (rev l) = forallb f l.
Proof.
  induction l as [|x l IH]; simpl; [reflexivity|].
  rewrite forallb_app, IH. simpl. rewrite andb_true_r. apply andb_comm.
Qed.

Lemma trimStart_forallb (s : jsstring) :
  forallb isWhiteSpace (trimStart s) = forallb isWhiteSpace s.
Proof.
  induction s as [|c s IH]; simpl; [reflexivity|].
  destruct (isWhiteSpace c) eqn:E; simpl; [exact IH|].
  rewrite E. reflexivity.
Qed.

(** A line trims to nothing exactly when it is white space only. *)
Lemma trim_nil_iff (s : jsstring) :
  trim s = [] <-> forallb isWhiteSpace s = true.
Proof.
  unfold trim, trimEnd.
  rewrite <- trimStart_forallb, <- (forallb_rev _ (trimStart s)).
  rewrite <- trimStart_nil_iff. split.
  - intros H. apply (f_equal (@rev _)) in H.
    rewrite rev_involutive in H. exact H.
  - intros ->. reflexivity.
Qed.

(** C9: when the remote call or the parsing of its answer throws,
    [generateLearnerSteps] still returns: the codes of the steps are the
    lines of the solution that are not white space only, in their order and
    as they are in the solution; every step has the generic explanation and
    no context.  The lines are the pieces between line feeds. *)
Theorem generateLearnerSteps_fallback (solution : jsstring) :
  let steps := generateLearnerSteps Threw solution in
  List.map code steps
  = List.filter (fun l => negb (forallb isWhiteSpace l)) (splitLines solution)
  /\ Forall (fun s => explanation s = lit "Type this line."
                      /\ context s = None) steps
  /\ Subseq (List.map code steps) (splitLines solution)
  /\ joinLines (splitLines solution) = solution
  /\ Forall (fun l => ~ In NL l) (splitLines solution).
Proof.
  cbv zeta. unfold generateLearnerSteps.
  assert (E : forall ls : list jsstring,
             List.filter (fun l => (0 <? length (trim l))%nat) ls
             = List.filter (fun l => negb (forallb isWhiteSpace l)) ls).
  { intros ls. apply filter_ext. intros l.
    destruct (forallb isWhiteSpace l) eqn:W.
    - apply trim_nil_iff in W. rewrite W. reflexivity.
    - destruct (trim l) eqn:T; [|reflexivity].
      apply trim_nil_iff in T. congruence. }
  rewrite map_map. cbn [code]. rewrite map_id, E.
  split; [reflexivity|]. split; [|split; [|split]].
  - apply Forall_forall. intros s H. apply in_map_iff in H as (l & <- & _).
    split; reflexivity.
  - apply filter_Subseq.
  - apply joinLines_splitLines.
  - apply splitLines_no_NL.
Qed.

(* ================================================================== *)
(** * Further properties of the workspace *)
(* ================================================================== *)

(** ** Containment *)

Lemma Contains_middle (pre p post : jsstring) : Contains (pre ++ p ++ post) p.
Proof. apply Contains_iff. exists pre, post. reflexivity. Qed.

Lemma Contains_nil_inv (p : jsstring) : Contains [] p -> p = [].
Proof. intros [i H]. apply occursAt_nil_inv in H. apply H. Qed.

Lemma Contains_cons (c : jschar) (s p : jsstring) :
  Contains s p -> Contains (c :: s) p.
Proof.
  intros [i H]. exists (S i). apply occursAt_S. exact H.
Qed.

Lemma Contains_cons_inv (c : jschar) (s p : jsstring) :
  Contains (c :: s) p -> startsWith (c :: s) p = true \/ Contains s p.
Proof.
  intros [[|i] H].
  - left. apply occursAt_0. exact H.
  - right. exists i. apply occursAt_S in H. exact H.
Qed.

Lemma countNL_app (s t : jsstring) :
  countNL (s ++ t) = (countNL s + countNL t)%nat.
Proof.
  induction s as [|c s IH]; simpl; [reflexivity|]. rewrite IH. lia.
Qed.

Lemma countNL_firstn_le (k : nat) (s : jsstring) :
  (countNL (firstn k s) <= countNL s)%nat.
Proof.
  rewrite <- (firstn_skipn k s) at 2. rewrite countNL_app. lia.
Qed.

(** ** Tracker: what the match depends on *)

Lemma stripWhiteSpace_blank (s : jsstring) :
  forallb isWhiteSpace s = true <-> stripWhiteSpace s = [].
Proof.
  unfold stripWhiteSpace. induction s as [|c s IH]; simpl; [tauto|].
  destruct (isWhiteSpace c); simpl; [exact IH|].
  split; discriminate.
Qed.

Lemma survives_code_not_blank (s : LearnerStep) :
  survives s -> stripWhiteSpace (code s) <> [].
Proof.
  intros (H & _) E. apply stripWhiteSpace_blank, trim_nil_iff in E.
  rewrite E in H. apply H. reflexivity.
Qed.

(** One run of the validation effect looks at the buffer through its
    normalized form only: two renders with the same learner-mode flag whose
    buffers differ in white space alone lead to the same index. *)
Theorem validate_whitespace_insensitive
    (lessonId : jsstring) (steps : list LearnerStep) (idx : nat)
    (r1 r2 : render) :
  learnerModeActive r1 = learnerModeActive r2 ->
  stripWhiteSpace (buffer r1) = stripWhiteSpace (buffer r2) ->
  fst (validate lessonId steps idx r1) = fst (validate lessonId steps idx r2).
Proof.
  intros A B. unfold validate. rewrite A, B.
  destruct (negb (learnerModeActive r2) || _); [reflexivity|].
  destruct (nth_error steps idx) as [step|]; [|reflexivity].
  destruct (includes _ _); reflexivity.
Qed.

Lemma validate_whitespace_insensitive_witness :
  fst (validate (lit "lesson-1") scenarioB_steps 0
         (mkRender true (lit "color:red;") 1024))
  = fst (validate (lit "lesson-1") scenarioB_steps 0
           (mkRender true (lit "  color :  red ; ") 320)).
Proof.
  apply validate_whitespace_insensitive; reflexivity.
Defined.

(** X1: With a filtered step list, a buffer that is empty or white space only
    never advances the index and emits nothing: every step that passed the
    filter has a non-empty normalized code. *)
Theorem validate_blank_buffer_stays
    (lessonId : jsstring) (raw : list LearnerStep) (idx : nat) (r : render) :
  forallb isWhiteSpace (buffer r) = true ->
  validate lessonId (filterSteps raw) idx r = (idx, []).
Proof.
  intros B.
  destruct (validate_cases lessonId (filterSteps raw) idx r)
    as [E | (step & _ & E & M & _)]; [exact E|].
  exfalso. apply nth_error_In in E. unfold filterSteps in E.
  apply filter_In in E as [_ K]. apply keepStep_iff in K.
  apply survives_code_not_blank in K. apply K.
  unfold matches in M. apply stripWhiteSpace_blank in B. rewrite B in M.
  apply Contains_nil_inv in M. exact M.
Qed.

Lemma validate_blank_buffer_stays_witness :
  validate (lit "lesson-1") (filterSteps scenarioB_steps) 0
    (mkRender true (lit "   ") 1024) = (0%nat, []).
Proof.
  apply validate_blank_buffer_stays. reflexivity.
Defined.

(** Without the filter the match can be vacuous: a step whose code is white
    space only is matched by every buffer, the empty one included, so that
    an active run at that step always advances. *)
Theorem validate_blank_step_always_advances
    (lessonId : jsstring) (steps : list LearnerStep) (idx : nat)
    (step : LearnerStep) (r : render) :
  learnerModeActive r = true ->
  nth_error steps idx = Some step ->
  forallb isWhiteSpace (code step) = true ->
  fst (validate lessonId steps idx r) = S idx.
Proof.
  intros A E B.
  rewrite (validate_advance lessonId steps idx r step A E); [reflexivity|].
  unfold matches. apply stripWhiteSpace_blank in B. rewrite B.
  exists 0%nat. apply occursAt_0. reflexivity.
Qed.

Lemma validate_blank_step_always_advances_witness :
  fst (validate (lit "lesson-1") [step_of "  "] 0 (mkRender true [] 1024))
  = 1%nat.
Proof.
  apply (validate_blank_step_always_advances (lit "lesson-1")
           [step_of "  "] 0 (step_of "  ")); reflexivity.
Defined.

(** ** Building the step list *)

Lemma filter_map_filter {A B : Type} (g : A -> B) (f : B -> bool)
    (h : A -> bool) (l : list A) :
  (forall x, f (g x) = true -> h x = true) ->
  filter f (map g (filter h l)) = map g (filter (fun x => f (g x)) l).
Proof.
  intros Hfh. induction l as [|x l IH]; simpl; [reflexivity|].
  destruct (h x) eqn:Hx; simpl.
  - destruct (f (g x)); simpl; rewrite IH; reflexivity.
  - destruct (f (g x)) eqn:Fx; [|exact IH].
    apply Hfh in Fx. congruence.
Qed.

(** X3: A lesson without steps of its own whose generation fails is guided by
    the lines of its solution: the steps are, in order, the lines that pass
    the filter (not blank, no comment by their first or last characters),
    each with the generic explanation and no context, and the index starts
    at 0.  An empty step list of the lesson counts as none. *)
Theorem initializeLearnerMode_fallback (solution : jsstring) :
  initializeLearnerMode None Threw solution
  = (List.map (fun l => mkStep l GENERIC_EXPLANATION None)
       (List.filter (fun l => keepStep (mkStep l GENERIC_EXPLANATION None))
          (splitLines solution)),
     0%nat)
  /\ initializeLearnerMode (Some []) Threw solution
     = initializeLearnerMode None Threw solution
  /\ Forall survives (fst (initializeLearnerMode None Threw solution))
  /\ Subseq (List.map code (fst (initializeLearnerMode None Threw solution)))
       (splitLines solution).
Proof.
  assert (E : initializeLearnerMode None Threw solution
              = (List.map (fun l => mkStep l GENERIC_EXPLANATION None)
                   (List.filter
                      (fun l => keepStep (mkStep l GENERIC_EXPLANATION None))
                      (splitLines solution)), 0%nat)).
  { unfold initializeLearnerMode, filterSteps, generateLearnerSteps.
    f_equal. apply filter_map_filter.
    intros l. unfold keepStep. cbn [code].
    destruct (trim l); simpl; [discriminate | reflexivity]. }
  split; [exact E|]. split; [reflexivity|]. rewrite E. cbn [fst]. split.
  - apply Forall_forall. intros s H.
    apply in_map_iff in H as (l & <- & H).
    apply filter_In in H as [_ H]. apply keepStep_iff. exact H.
  - rewrite map_map. cbn [code]. rewrite map_id. apply filter_Subseq.
Qed.

(** Whatever the source of the steps, the list the tracker starts with holds
    only steps that pass the filter, it is a subsequence of the list it was
    built from, and the index starts at 0; the steps of the lesson, when
    there are some, are used and the generator's answer is ignored. *)
Theorem initializeLearnerMode_filtered
    (lessonSteps : option (list LearnerStep)) (g : generation)
    (solution : jsstring) :
  Forall survives (fst (initializeLearnerMode lessonSteps g solution))
  /\ snd (initializeLearnerMode lessonSteps g solution) = 0%nat
  /\ (forall s ss, lessonSteps = Some (s :: ss) ->
        fst (initializeLearnerMode lessonSteps g solution)
        = filterSteps (s :: ss))
  /\ (forall answer, lessonSteps = None \/ lessonSteps = Some [] ->
        g = Answered answer ->
        fst (initializeLearnerMode lessonSteps g solution)
        = filterSteps answer).
Proof.
  split; [|split; [reflexivity|split]].
  - unfold initializeLearnerMode. cbn [fst]. apply Forall_forall.
    intros s H. unfold filterSteps in H.
    apply filter_In in H as [_ H]. apply keepStep_iff. exact H.
  - intros s ss ->. reflexivity.
  - intros answer [-> | ->] ->; reflexivity.
Qed.

Lemma initializeLearnerMode_filtered_witness :
  fst (initializeLearnerMode
         (Some [step_of "<!-- intro -->"; step_of "<h1>Hi</h1>"])
         Threw (lit "<p>other</p>"))
  = filterSteps [step_of "<!-- intro -->"; step_of "<h1>Hi</h1>"].
Proof.
  destruct (initializeLearnerMode_filtered
              (Some [step_of "<!-- intro -->"; step_of "<h1>Hi</h1>"])
              Threw (lit "<p>other</p>")) as (_ & _ & H & _).
  apply (H (step_of "<!-- intro -->") [step_of "<h1>Hi</h1>"]). reflexivity.
Defined.

(** ** Locator and scroll: bounds *)

(** X4: The located line never lies beyond the buffer: it is at most the number
    of lines of the buffer. *)
Theorem getInsertionLineIndex_within_buffer
    (steps : list LearnerStep) (idx : nat) (buf : jsstring) (n : Z) :
  getInsertionLineIndex steps idx buf = Some n ->
  (0 <= n <= lineCount buf)%Z.
Proof.
  intros H.
  destruct (nth_error steps idx) as [step|] eqn:Hs;
    [|unfold getInsertionLineIndex in H; rewrite Hs in H; discriminate].
  assert (M : (0 <= markerOrEnd buf <= lineCount buf)%Z).
  { split; [apply markerOrEnd_nonneg|].
    destruct (indexOf_cases buf INSERTION_MARKER) as [[_ N] | (i & _ & L)].
    - rewrite (markerOrEnd_end buf N). lia.
    - rewrite (markerOrEnd_marker buf i L), lineCount_countNL.
      pose proof (countNL_firstn_le i buf). lia. }
  destruct buf as [|b buf'].
  - rewrite (locate_empty steps idx step Hs) in H. inversion H.
    unfold lineCount. simpl. lia.
  - destruct (context step) as [[|c ctx']|] eqn:C.
    + rewrite (locate_no_context steps idx step Hs (b :: buf')) in H;
        [inversion H; subst; exact M | discriminate |].
      intros (ctx & E & Hc & _). congruence.
    + destruct (indexOf_cases (b :: buf') (trim (c :: ctx')))
        as [[_ NC] | (i & _ & L)].
      * rewrite (locate_no_context steps idx step Hs (b :: buf')) in H;
          [inversion H; subst; exact M | discriminate |].
        intros (ctx & E & _ & K). congruence.
      * rewrite (locate_context steps idx step Hs (b :: buf') (c :: ctx') i)
          in H; [|discriminate | exact C | discriminate | exact L].
        injection H as <-. rewrite lineCount_countNL.
        pose proof (countNL_firstn_le (i + length (c :: ctx')) (b :: buf'))
          as K.
        cbn [length] in K. lia.
    + rewrite (locate_no_context steps idx step Hs (b :: buf')) in H;
        [inversion H; subst; exact M | discriminate |].
      intros (ctx & E & _). congruence.
Qed.

Lemma getInsertionLineIndex_within_buffer_witness :
  (0 <= 1 <= lineCount scenarioD_buffer)%Z.
Proof.
  apply (getInsertionLineIndex_within_buffer [step_of "<h1>Hi</h1>"] 0).
  reflexivity.
Defined.

(** The locator answers null exactly when there is no step at the index,
    which is the case once the lesson is complete; the scroll effect then
    clears the highlight and scrolls nowhere, and the locate button does
    nothing.  While there is a step and a container, both scroll to the same
    offset, which is not negative. *)
Theorem locator_null_iff_no_step
    (steps : list LearnerStep) (idx : nat) (buf : jsstring)
    (clientHeight : option Z) :
  (getInsertionLineIndex steps idx buf = None <-> (length steps <= idx)%nat)
  /\ ((length steps <= idx)%nat ->
      scrollEffect true steps idx buf clientHeight = (None, None)
      /\ handleLocateInsertion steps idx buf clientHeight = None)
  /\ (forall h, (idx < length steps)%nat -> clientHeight = Some h ->
        exists line,
          scrollEffect true steps idx buf clientHeight
          = (Some line, Some (scrollTop line h))
          /\ handleLocateInsertion steps idx buf clientHeight
             = Some (scrollTop line h)
          /\ 0 <= scrollTop line h).
Proof.
  assert (N : getInsertionLineIndex steps idx buf = None
              <-> (length steps <= idx)%nat).
  { rewrite <- nth_error_None. unfold getInsertionLineIndex.
    destruct (nth_error steps idx) as [step|]; [|tauto].
    split; [|discriminate].
    destruct buf; [discriminate|].
    destruct (context step) as [[|c ctx]|]; try discriminate.
    cbv zeta. destruct (negb _); discriminate. }
  split; [exact N|]. split.
  - intros H. apply N in H. unfold scrollEffect, handleLocateInsertion.
    rewrite H. split; reflexivity.
  - intros h L ->.
    assert (E : exists line, getInsertionLineIndex steps idx buf = Some line).
    { destruct (getInsertionLineIndex steps idx buf) as [line|];
        [exists line; reflexivity|].
      assert (length steps <= idx)%nat by (apply N; reflexivity). lia. }
    destruct E as [line E].
    exists line. unfold scrollEffect, handleLocateInsertion. rewrite E.
    repeat split. unfold scrollTop. apply Q.le_max_l.
Qed.

Lemma locator_null_iff_no_step_witness :
  scrollEffect true scenarioB_steps 2 (lit "color: red;") (Some 600%Z)
  = (None, None)
  /\ handleLocateInsertion scenarioB_steps 2 (lit "color: red;") (Some 600%Z)
     = None.
Proof.
  destruct (locator_null_iff_no_step scenarioB_steps 2 (lit "color: red;")
              (Some 600%Z)) as (_ & H & _).
  apply H. simpl. lia.
Defined.

(** The scroll offset grows with the line and shrinks with the height of
    the container; it is 0 exactly while the line lies in the upper half of
    the container. *)
Theorem scrollTop_monotone (line line' h h' : Z) :
  (line <= line')%Z -> (h' <= h)%Z ->
  scrollTop line h <= scrollTop line' h'
  /\ (scrollTop line h == 0 <-> (2 * (line * LINE_HEIGHT + 24) <= h)%Z).
Proof.
  intros Hl Hh. unfold scrollTop. cbv zeta. split.
  - apply Q.max_le_compat_l.
    unfold Qminus, Qdiv. apply Qplus_le_compat.
    + rewrite <- Zle_Qle. unfold LINE_HEIGHT. lia.
    + apply Qopp_le_compat. apply Qmult_le_compat_r; [|discriminate].
      rewrite <- Zle_Qle. exact Hh.
  - generalize (line * LINE_HEIGHT + 24)%Z. intros top.
    assert (K : inject_Z top - inject_Z h / 2 <= 0 <-> (2 * top <= h)%Z).
    { unfold Qle, Qminus, Qdiv, Qplus, Qopp, Qmult, Qinv, inject_Z.
      cbn -[Z.mul Z.add Z.opp]. lia. }
    rewrite <- K. split.
    + intros E. rewrite <- E. apply Q.le_max_r.
    + intros E. apply Q.max_l. exact E.
Qed.

Lemma scrollTop_monotone_witness :
  scrollTop 3 600 <= scrollTop 30 400
  /\ (scrollTop 3 600 == 0 <-> (2 * (3 * LINE_HEIGHT + 24) <= 600)%Z).
Proof.
  apply scrollTop_monotone; lia.
Defined.

(** ** Initial buffer: the insertion marker *)

Lemma eqIgnoreCase_refl (c : jschar) : eqIgnoreCase c c = true.
Proof. apply N.eqb_refl. Qed.

Lemma startsWith_ignoreCase (s p : jsstring) :
  startsWith s p = true -> startsWithIgnoreCase s p = true.
Proof.
  revert s; induction p as [|d p IH]; intros [|c s]; simpl; auto.
  rewrite !andb_true_iff, N.eqb_eq. intros [-> H].
  split; [apply eqIgnoreCase_refl | apply IH; exact H].
Qed.

Lemma startsWithIgnoreCase_split (s p : jsstring) :
  startsWithIgnoreCase s p = true ->
  s = firstn (length p) s ++ skipn (length p) s
  /\ length (firstn (length p) s) = length p
  /\ startsWithIgnoreCase (firstn (length p) s) p = true.
Proof.
  intros H. split; [symmetry; apply firstn_skipn|].
  revert s H; induction p as [|d p IH]; intros [|c s]; simpl;
    try discriminate; auto.
  rewrite andb_true_iff. intros [E H]. destruct (IH s H) as [L K].
  rewrite L, E, K. auto.
Qed.

(** What the replacement does when the tag occurs: the first match of the
    tag, in any case of its letters, gives way to the replacement text; no
    match starts before it. *)
Lemma replaceFirstIgnoreCase_found (s p repl : jsstring) :
  Contains s p ->
  exists pre tag post,
    s = pre ++ tag ++ post
    /\ length tag = length p
    /\ startsWithIgnoreCase tag p = true
    /\ (forall j, (j < length pre)%nat ->
          startsWithIgnoreCase (skipn j s) p = false)
    /\ replaceFirstIgnoreCase s p repl = pre ++ repl ++ post.
Proof.
  induction s as [|c s IH]; intros C.
  - apply Contains_nil_inv in C. subst p.
    exists [], [], []. simpl. repeat split; auto. intros j Hj. lia.
  - simpl. destruct (startsWithIgnoreCase (c :: s) p) eqn:E.
    + destruct (startsWithIgnoreCase_split (c :: s) p E) as (S1 & S2 & S3).
      exists [], (firstn (length p) (c :: s)), (skipn (length p) (c :: s)).
      simpl app. repeat split; auto. intros j Hj. simpl in Hj. lia.
    + apply Contains_cons_inv in C as [C | C].
      * apply startsWith_ignoreCase in C. congruence.
      * destruct (IH C) as (pre & tag & post & -> & L & K & F & R).
        exists (c :: pre), tag, post. rewrite R. simpl app.
        repeat split; auto.
        intros [|j] Hj; [exact E|]. cbn [skipn]. apply F.
        cbn [length] in Hj. lia.
Qed.

Lemma falsy_orElse (userCode : option jsstring) (c : jsstring) :
  falsy userCode = true -> orElse userCode c = c.
Proof. destruct userCode as [[|u us]|]; simpl; congruence. Qed.

Lemma prepareInitialCode_marker
    (userCode : option jsstring) (lessonInitialCode : jsstring) :
  falsy userCode = true ->
  Contains (prepareInitialCode true userCode lessonInitialCode)
    INSERTION_MARKER.
Proof.
  intros F. unfold prepareInitialCode. cbv zeta.
  rewrite (falsy_orElse userCode lessonInitialCode F), F.
  destruct (includes lessonInitialCode INSERTION_MARKER) eqn:I;
    cbn [negb andb].
  - apply includes_iff. exact I.
  - destruct (includes lessonInitialCode BODY_TAG) eqn:B.
    + apply includes_iff in B.
      destruct (replaceFirstIgnoreCase_found lessonInitialCode BODY_TAG
                  (BODY_TAG ++ NL :: lit "  " ++ INSERTION_MARKER) B)
        as (pre & tag & post & _ & _ & _ & _ & ->).
      apply Contains_iff.
      exists (pre ++ BODY_TAG ++ NL :: lit "  "), post.
      rewrite <- !app_assoc. simpl. reflexivity.
    + destruct (jseqb (trim lessonInitialCode) []).
      * exists 0%nat. apply occursAt_0. reflexivity.
      * apply Contains_iff. exists (lessonInitialCode ++ [NL; NL]), [].
        rewrite <- app_assoc, app_nil_r. reflexivity.
Qed.

(** X5: With insertion hints on and no saved code of the learner, the buffer the
    editor starts with always holds the insertion marker, so it is never
    empty; a lesson code that holds the marker already is taken as it is. *)
Theorem prepareInitialCode_has_marker
    (userCode : option jsstring) (lessonInitialCode : jsstring) :
  falsy userCode = true ->
  Contains (prepareInitialCode true userCode lessonInitialCode)
    INSERTION_MARKER
  /\ prepareInitialCode true userCode lessonInitialCode <> []
  /\ (Contains lessonInitialCode INSERTION_MARKER ->
      prepareInitialCode true userCode lessonInitialCode = lessonInitialCode).
Proof.
  intros F.
  pose proof (prepareInitialCode_marker userCode lessonInitialCode F) as M.
  split; [exact M|]. split.
  - intros E. rewrite E in M. apply Contains_nil_inv in M. discriminate.
  - intros C. unfold prepareInitialCode. cbv zeta.
    rewrite (falsy_orElse userCode lessonInitialCode F).
    apply includes_iff in C. rewrite C. reflexivity.
Qed.

Lemma prepareInitialCode_has_marker_witness :
  Contains (prepareInitialCode true None
              (lit "<html><body></body></html>")) INSERTION_MARKER.
Proof.
  apply (prepareInitialCode_has_marker None
           (lit "<html><body></body></html>")). reflexivity.
Defined.

(** X6: The three ways the marker is put in, for a lesson code without
    marker, hints on and no saved code.  When the code holds the lower-case
    body tag, the first body tag of the code, found without regard to case
    (no such tag starts before it), is written back in lower case and
    followed by a line feed, two spaces and the marker, the text before and
    after it kept.  When the code is white space only, the marker is the
    whole buffer.  Otherwise the marker comes after the code and an empty
    line. *)
Theorem prepareInitialCode_cases (userCode : option jsstring) (c : jsstring) :
  falsy userCode = true -> ~ Contains c INSERTION_MARKER ->
  (Contains c BODY_TAG ->
     exists pre tag post,
       c = pre ++ tag ++ post /\ length tag = 6%nat
       /\ startsWithIgnoreCase tag BODY_TAG = true
       /\ (forall j, (j < length pre)%nat ->
             startsWithIgnoreCase (skipn j c) BODY_TAG = false)
       /\ prepareInitialCode true userCode c
          = pre ++ BODY_TAG ++ NL :: lit "  " ++ INSERTION_MARKER ++ post)
  /\ (~ Contains c BODY_TAG -> forallb isWhiteSpace c = true ->
      prepareInitialCode true userCode c = INSERTION_MARKER)
  /\ (~ Contains c BODY_TAG -> forallb isWhiteSpace c = false ->
      prepareInitialCode true userCode c
      = c ++ NL :: NL :: INSERTION_MARKER).
Proof.
  intros F NM. unfold prepareInitialCode. cbv zeta.
  rewrite (falsy_orElse userCode c F), F.
  rewrite <- includes_iff in NM. apply not_true_is_false in NM. rewrite NM.
  cbn [negb andb]. split; [|split].
  - intros B. pose proof B as B'. apply includes_iff in B'. rewrite B'.
    destruct (replaceFirstIgnoreCase_found c BODY_TAG
                (BODY_TAG ++ NL :: lit "  " ++ INSERTION_MARKER) B)
      as (pre & tag & post & E & L & K & First & R).
    exists pre, tag, post. rewrite R. repeat split; auto.
  - intros B W. rewrite <- includes_iff in B. apply not_true_is_false in B.
    rewrite B. apply trim_nil_iff in W. rewrite W. reflexivity.
  - intros B W. rewrite <- includes_iff in B. apply not_true_is_false in B.
    rewrite B. destruct (jseqb (trim c) []) eqn:T; [|reflexivity].
    apply jseqb_eq, trim_nil_iff in T. congruence.
Qed.

(** The upper-case tag that comes first is the one replaced, although it is
    the lower-case tag further on that makes the code take this branch. *)
Example prepareInitialCode_first_tag :
  prepareInitialCode true None (lit "<BODY><body>")
  = lit "<body>" ++ NL :: lit "  " ++ INSERTION_MARKER ++ lit "<body>".
Proof. reflexivity. Qed.

Lemma prepareInitialCode_cases_witness :
  prepareInitialCode true None (lit "<h1>Hi</h1>")
  = lit "<h1>Hi</h1>" ++ NL :: NL :: INSERTION_MARKER.
Proof.
  destruct (prepareInitialCode_cases None (lit "<h1>Hi</h1>") eq_refl)
    as (_ & _ & H).
  - apply indexOf_missing. reflexivity.
  - apply H; [apply indexOf_missing|]; reflexivity.
Defined.

(** X7: The lesson effect leaves saved code of the learner as it is, does
    nothing with hints off, and is idempotent: preparing a prepared buffer
    changes nothing. *)
Theorem prepareInitialCode_stable
    (hints : bool) (userCode : option jsstring) (c : jsstring) :
  (falsy userCode = false ->
   userCode = Some (prepareInitialCode hints userCode c))
  /\ prepareInitialCode false userCode c = orElse userCode c
  /\ prepareInitialCode hints None (prepareInitialCode hints None c)
     = prepareInitialCode hints None c.
Proof.
  split; [|split].
  - intros F. unfold prepareInitialCode. cbv zeta. rewrite F, andb_false_r.
    destruct userCode as [[|u us]|]; simpl in *; congruence.
  - reflexivity.
  - destruct hints; [|reflexivity].
    pose proof (prepareInitialCode_marker None c eq_refl) as M.
    apply includes_iff in M.
    unfold prepareInitialCode at 1. cbv zeta.
    simpl orElse. rewrite M. reflexivity.
Qed.

Lemma prepareInitialCode_stable_witness :
  Some (lit "<p>mine</p>")
  = Some (prepareInitialCode true (Some (lit "<p>mine</p>"))
            (lit "<body></body>")).
Proof.
  destruct (prepareInitialCode_stable true (Some (lit "<p>mine</p>"))
              (lit "<body></body>")) as (H & _).
  apply H. reflexivity.
Defined.

(** X8: On a buffer prepared with hints, and no saved code, a step whose context
    does not apply is always guided to the line of the first marker, a line
    of the buffer: the locator never falls back to the end of the buffer. *)
Theorem locator_finds_marker_after_prepare
    (steps : list LearnerStep) (idx : nat) (step : LearnerStep)
    (userCode : option jsstring) (c : jsstring) :
  let buf := prepareInitialCode true userCode c in
  falsy userCode = true ->
  nth_error steps idx = Some step ->
  ~ contextApplies buf step ->
  exists i,
    leftmostAt INSERTION_MARKER buf i
    /\ getInsertionLineIndex steps idx buf
       = Some (Z.of_nat (countNL (firstn i buf)))
    /\ (Z.of_nat (countNL (firstn i buf)) < lineCount buf)%Z.
Proof.
  intros buf F Hs NC.
  pose proof (prepareInitialCode_marker userCode c F) as M.
  fold buf in M. destruct (Contains_leftmost _ _ M) as [i L].
  exists i. split; [exact L|].
  assert (B : buf <> []).
  { intros E. rewrite E in M. apply Contains_nil_inv in M. discriminate. }
  rewrite (locate_no_context steps idx step Hs buf B NC).
  rewrite (markerOrEnd_marker buf i L). split; [reflexivity|].
  rewrite lineCount_countNL. pose proof (countNL_firstn_le i buf). lia.
Qed.

Lemma locator_finds_marker_after_prepare_witness :
  exists i,
    leftmostAt INSERTION_MARKER
      (prepareInitialCode true None (lit "<body></body>")) i
    /\ getInsertionLineIndex [step_of "<h1>Hi</h1>"] 0
         (prepareInitialCode true None (lit "<body></body>"))
       = Some (Z.of_nat (countNL
                 (firstn i (prepareInitialCode true None
                              (lit "<body></body>")))))
    /\ (Z.of_nat (countNL
          (firstn i (prepareInitialCode true None (lit "<body></body>"))))
        < lineCount (prepareInitialCode true None (lit "<body></body>")))%Z.
Proof.
  apply (locator_finds_marker_after_prepare [step_of "<h1>Hi</h1>"] 0
           (step_of "<h1>Hi</h1>") None (lit "<body></body>")).
  - reflexivity.
  - reflexivity.
  - apply no_context_not_applies. reflexivity.
Defined.

(* ================================================================== *)
(** * Courses: completing lessons, the next lesson, locks *)
(* ================================================================== *)

Lemma allLessons_completeInCourse (lessonId userCode : jsstring)
    (course : Course.t) :
  allLessons (completeInCourse lessonId userCode course)
  = List.map (markCompleted lessonId userCode) (allLessons course).
Proof.
  unfold allLessons, completeInCourse. cbn [Course.modules].
  induction (Course.modules course) as [|m ms IH]; simpl; [reflexivity|].
  rewrite map_app, IH. reflexivity.
Qed.

Lemma markCompleted_id (lessonId userCode : jsstring) (l : Lesson.t) :
  Lesson.id (markCompleted lessonId userCode l) = Lesson.id l.
Proof. unfold markCompleted. destruct (jseqb _ _); reflexivity. Qed.

Lemma markCompleted_other (lessonId userCode : jsstring) (l : Lesson.t) :
  Lesson.id l <> lessonId -> markCompleted lessonId userCode l = l.
Proof.
  intros H. unfold markCompleted.
  destruct (jseqb (Lesson.id l) lessonId) eqn:E; [|reflexivity].
  apply jseqb_eq in E. contradiction.
Qed.

Lemma markCompleted_same (lessonId userCode : jsstring) (l : Lesson.t) :
  Lesson.id l = lessonId ->
  Lesson.completed (markCompleted lessonId userCode l) = true
  /\ Lesson.userCode (markCompleted lessonId userCode l) = Some userCode.
Proof.
  intros H. unfold markCompleted.
  apply jseqb_eq in H. rewrite H. split; reflexivity.
Qed.

Lemma markCompleted_keeps_completed (lessonId userCode : jsstring)
    (l : Lesson.t) :
  Lesson.completed l = true ->
  Lesson.completed (markCompleted lessonId userCode l) = true.
Proof. unfold markCompleted. destruct (jseqb _ _); auto. Qed.

Lemma markCompleted_idem (lessonId userCode : jsstring) (l : Lesson.t) :
  markCompleted lessonId userCode (markCompleted lessonId userCode l)
  = markCompleted lessonId userCode l.
Proof.
  unfold markCompleted at 2.
  destruct (jseqb (Lesson.id l) lessonId) eqn:E.
  - unfold markCompleted. cbn [Lesson.id]. rewrite E. reflexivity.
  - unfold markCompleted. rewrite E. reflexivity.
Qed.

(** X16: Completing a lesson keeps the shape of the course: the same modules
    with the same numbers of lessons, the same lesson ids in the same order; every
    lesson of the given id is completed and carries the submitted code, every
    other lesson is as before. *)
Theorem completeInCourse_effect (lessonId userCode : jsstring)
    (course : Course.t) :
  let course' := completeInCourse lessonId userCode course in
  List.map CourseModule.id (Course.modules course')
  = List.map CourseModule.id (Course.modules course)
  /\ List.map (fun m => length (CourseModule.lessons m))
       (Course.modules course')
     = List.map (fun m => length (CourseModule.lessons m))
         (Course.modules course)
  /\ List.map Lesson.id (allLessons course')
     = List.map Lesson.id (allLessons course)
  /\ (forall i l, nth_error (allLessons course) i = Some l ->
        exists l',
          nth_error (allLessons course') i = Some l'
          /\ (Lesson.id l = lessonId ->
              Lesson.completed l' = true
              /\ Lesson.userCode l' = Some userCode)
          /\ (Lesson.id l <> lessonId -> l' = l)).
Proof.
  cbv zeta. split; [|split; [|split]].
  - unfold completeInCourse. cbn [Course.modules]. rewrite map_map.
    reflexivity.
  - unfold completeInCourse. cbn [Course.modules]. rewrite map_map.
    apply map_ext. intros m. cbn [completeInModule CourseModule.lessons].
    apply length_map.
  - rewrite allLessons_completeInCourse, map_map. apply map_ext.
    apply markCompleted_id.
  - intros i l H. exists (markCompleted lessonId userCode l).
    rewrite allLessons_completeInCourse. split.
    + apply map_nth_error. exact H.
    + split; [apply markCompleted_same | apply markCompleted_other].
Qed.

(** X17: Completion is never taken back and completing twice is completing once;
    an id that no lesson has leaves the course as it is. *)
Theorem completeInCourse_monotone_idempotent (lessonId userCode : jsstring)
    (course : Course.t) :
  (forall i l, nth_error (allLessons course) i = Some l ->
     Lesson.completed l = true ->
     exists l',
       nth_error (allLessons (completeInCourse lessonId userCode course)) i
       = Some l' /\ Lesson.completed l' = true)
  /\ completeInCourse lessonId userCode
       (completeInCourse lessonId userCode course)
     = completeInCourse lessonId userCode course
  /\ ((forall l, In l (allLessons course) -> Lesson.id l <> lessonId) ->
      completeInCourse lessonId userCode course = course).
Proof.
  split; [|split].
  - intros i l H C. exists (markCompleted lessonId userCode l). split.
    + rewrite allLessons_completeInCourse. apply map_nth_error. exact H.
    + apply markCompleted_keeps_completed. exact C.
  - unfold completeInCourse. cbn. f_equal. rewrite map_map.
    apply map_ext. intros m. unfold completeInModule. cbn. f_equal.
    rewrite map_map. apply map_ext. apply markCompleted_idem.
  - intros H. destruct course as [i t d f v p ms la ca].
    unfold completeInCourse. cbn. f_equal.
    unfold allLessons in H. cbn in H.
    induction ms as [|m ms IH]; [reflexivity|]. cbn. f_equal.
    + destruct m as [mi mt md ls]. unfold completeInModule. cbn. f_equal.
      rewrite <- (map_id ls) at 2. apply map_ext_in. intros l Hl.
      apply markCompleted_other. apply H. cbn. apply in_or_app. auto.
    + apply IH. intros l Hl. apply H. cbn. apply in_or_app. auto.
Qed.

Lemma completeInCourse_monotone_idempotent_witness :
  let l := Lesson.mk (lit "les-0-0") [] [] [] [] [] [] None false None in
  let c := Course.mk (lit "c1") [] [] [] None None
             [CourseModule.mk (lit "mod-0") [] [] [l]] None 0 in
  completeInCourse (lit "les-9-9") (lit "<p></p>") c = c.
Proof.
  intros l c.
  destruct (completeInCourse_monotone_idempotent (lit "les-9-9")
              (lit "<p></p>") c) as (_ & _ & H).
  apply H. intros x [<- | []]. discriminate.
Defined.

Lemma completeInCourse_effect_witness :
  let l := Lesson.mk (lit "les-0-0") [] [] [] [] [] [] None false None in
  let c := Course.mk (lit "c1") [] [] [] None None
             [CourseModule.mk (lit "mod-0") [] [] [l]] None 0 in
  exists l',
    nth_error (allLessons (completeInCourse (lit "les-0-0") (lit "<p></p>") c))
      0 = Some l'
    /\ Lesson.completed l' = true
    /\ Lesson.userCode l' = Some (lit "<p></p>").
Proof.
  intros l c.
  destruct (completeInCourse_effect (lit "les-0-0") (lit "<p></p>") c)
    as (_ & _ & _ & H).
  destruct (H 0%nat l eq_refl) as (l' & E & K & _).
  exists l'. split; [exact E|]. apply K. reflexivity.
Defined.

(** ** The next lesson *)

Lemma firstOpenLesson_app (ls ls' : list Lesson.t) :
  firstOpenLesson (ls ++ ls')
  = match firstOpenLesson ls with
    | Some l => Some l
    | None => firstOpenLesson ls'
    end.
Proof.
  induction ls as [|l ls IH]; simpl; [reflexivity|].
  destruct (negb (Lesson.completed l)); [reflexivity | exact IH].
Qed.

Lemma getNextLesson_flat (course : Course.t) :
  getNextLesson course = firstOpenLesson (allLessons course).
Proof.
  unfold getNextLesson, allLessons.
  induction (Course.modules course) as [|m ms IH]; simpl; [reflexivity|].
  rewrite firstOpenLesson_app, IH. reflexivity.
Qed.

Lemma firstOpenLesson_some (ls : list Lesson.t) (l : Lesson.t) :
  firstOpenLesson ls = Some l ->
  exists pre post,
    ls = pre ++ l :: post
    /\ Forall (fun x => Lesson.completed x = true) pre
    /\ Lesson.completed l = false.
Proof.
  induction ls as [|x ls IH]; simpl; [discriminate|].
  destruct (Lesson.completed x) eqn:C; simpl.
  - intros H. destruct (IH H) as (pre & post & -> & F & K).
    exists (x :: pre), post. repeat split; auto.
  - intros H. injection H as <-. exists [], ls. repeat split; auto.
Qed.

Lemma firstOpenLesson_none (ls : list Lesson.t) :
  firstOpenLesson ls = None <->
  Forall (fun x => Lesson.completed x = true) ls.
Proof.
  induction ls as [|x ls IH]; simpl.
  - split; [constructor | reflexivity].
  - destruct (Lesson.completed x) eqn:C; simpl.
    + rewrite IH. split; [intros F; constructor; auto|].
      intros F; inversion F; auto.
    + split; [discriminate|]. intros F; inversion F; congruence.
Qed.

(** X18: [getNextLesson] answers the first lesson, in the order of the map, that
    is not completed, and null exactly when every lesson is completed. *)
Theorem getNextLesson_first_open (course : Course.t) :
  (getNextLesson course = None <->
   Forall (fun l => Lesson.completed l = true) (allLessons course))
  /\ (forall l, getNextLesson course = Some l ->
        exists i,
          nth_error (allLessons course) i = Some l
          /\ Lesson.completed l = false
          /\ forall j x, (j < i)%nat ->
               nth_error (allLessons course) j = Some x ->
               Lesson.completed x = true).
Proof.
  rewrite getNextLesson_flat. split; [apply firstOpenLesson_none|].
  intros l H. destruct (firstOpenLesson_some _ _ H) as (pre & post & E & F & C).
  exists (length pre). rewrite E. split; [|split; [exact C|]].
  - rewrite nth_error_app2, Nat.sub_diag by lia. reflexivity.
  - intros j x Hj Hx. rewrite nth_error_app1 in Hx by exact Hj.
    apply nth_error_In in Hx. rewrite Forall_forall in F. auto.
Qed.

Lemma getNextLesson_first_open_witness :
  exists i,
    nth_error (allLessons demoCourse) i = Some (lesson_of "les-0-1" false)
    /\ Lesson.completed (lesson_of "les-0-1" false) = false
    /\ forall j x, (j < i)%nat ->
         nth_error (allLessons demoCourse) j = Some x ->
         Lesson.completed x = true.
Proof.
  destruct (getNextLesson_first_open demoCourse) as (_ & H).
  apply H. reflexivity.
Defined.

(** ** Locks *)

Lemma isLocked_unfold (course : Course.t) (i : nat) (l : Lesson.t) :
  nth_error (allLessons course) i = Some l ->
  isLocked course i
  = Some (negb (i =? 0)%nat
          && negb ((0 <? i)%nat
                   && match nth_error (allLessons course) (i - 1) with
                      | Some prev => Lesson.completed prev
                      | None => false
                      end)
          && negb (Lesson.completed l)).
Proof. intros H. unfold isLocked. rewrite H. reflexivity. Qed.

(** X19: The lesson that [getNextLesson] answers, the one the resume button
    opens, is never locked: it is drawn as the current lesson. *)
Theorem getNextLesson_unlocked (course : Course.t) (l : Lesson.t) :
  getNextLesson course = Some l ->
  exists i,
    nth_error (allLessons course) i = Some l
    /\ isLocked course i = Some false
    /\ isCurrent course i = Some true.
Proof.
  rewrite getNextLesson_flat. intros H.
  destruct (firstOpenLesson_some _ _ H) as (pre & post & E & F & C).
  exists (length pre).
  assert (N : nth_error (allLessons course) (length pre) = Some l).
  { rewrite E, nth_error_app2, Nat.sub_diag by lia. reflexivity. }
  assert (L : isLocked course (length pre) = Some false).
  { rewrite (isLocked_unfold course (length pre) l N). f_equal.
    destruct pre as [|p pre'] using rev_ind; [reflexivity|].
    rewrite length_app. cbn [length].
    replace (length pre' + 1 =? 0)%nat with false
      by (symmetry; apply Nat.eqb_neq; lia).
    replace (0 <? length pre' + 1)%nat with true
      by (symmetry; apply Nat.ltb_lt; lia).
    replace (length pre' + 1 - 1)%nat with (length pre') by lia.
    rewrite E, <- !app_assoc, nth_error_app2, Nat.sub_diag by lia.
    cbn [app nth_error].
    apply Forall_app in F as [_ F]. inversion F as [|? ? Cp _]; subst.
    rewrite Cp. reflexivity. }
  split; [exact N|]. split; [exact L|].
  unfold isCurrent. rewrite L, N, C. reflexivity.
Qed.

Lemma getNextLesson_unlocked_witness :
  exists i,
    nth_error (allLessons demoCourse) i = Some (lesson_of "les-0-1" false)
    /\ isLocked demoCourse i = Some false
    /\ isCurrent demoCourse i = Some true.
Proof.
  apply getNextLesson_unlocked. reflexivity.
Defined.

(** A lesson is locked exactly when it is not the first one, is not
    completed and the lesson before it is not completed; so completed
    lessons are never locked and a locked lesson is never the current one. *)
Theorem isLocked_iff (course : Course.t) (i : nat) (l : Lesson.t) :
  nth_error (allLessons course) i = Some l ->
  (isLocked course i = Some true <->
   Lesson.completed l = false
   /\ exists prev, nth_error (allLessons course) (i - 1) = Some prev
                   /\ (0 < i)%nat /\ Lesson.completed prev = false)
  /\ (Lesson.completed l = true -> isLocked course i = Some false)
  /\ (isLocked course i = Some true -> isCurrent course i = Some false).
Proof.
  intros H.
  assert (P : (0 < i)%nat ->
              exists prev, nth_error (allLessons course) (i - 1) = Some prev).
  { intros Hi.
    destruct (nth_error (allLessons course) (i - 1)) as [prev|] eqn:E;
      [exists prev; reflexivity|].
    apply nth_error_None in E.
    assert (i < length (allLessons course))%nat
      by (apply nth_error_Some; congruence). lia. }
  split; [|split]; [rewrite (isLocked_unfold course i l H)
                    | rewrite (isLocked_unfold course i l H) |].
  - destruct i as [|i].
    + cbn. split; [discriminate|]. intros (_ & prev & _ & L & _). lia.
    + destruct (P ltac:(lia)) as [prev E]. rewrite E.
      replace (S i =? 0)%nat with false by reflexivity.
      replace (0 <? S i)%nat with true by reflexivity. cbn [negb andb].
      destruct (Lesson.completed prev) eqn:Cp,
               (Lesson.completed l) eqn:Cl; cbn;
        (split;
         [first [discriminate
                | intros _; split; [reflexivity|];
                  exists prev; repeat split; auto; lia]
         | first [reflexivity
                 | intros (A & prev' & E' & _ & B); congruence]]).
  - intros C. rewrite C, andb_false_r. reflexivity.
  - intros L. unfold isCurrent. rewrite L, H. reflexivity.
Qed.

Lemma isLocked_iff_witness :
  isLocked demoCourse 2 = Some true <->
  Lesson.completed (lesson_of "les-1-0" false) = false
  /\ exists prev, nth_error (allLessons demoCourse) (2 - 1) = Some prev
                  /\ (0 < 2)%nat /\ Lesson.completed prev = false.
Proof.
  apply (isLocked_iff demoCourse 2 (lesson_of "les-1-0" false)). reflexivity.
Defined.

(** X20: Completing a lesson unlocks the lesson drawn after it. *)
Theorem completeInCourse_unlocks_following (lessonId userCode : jsstring)
    (course : Course.t) (i : nat) (l next : Lesson.t) :
  nth_error (allLessons course) i = Some l ->
  Lesson.id l = lessonId ->
  nth_error (allLessons course) (S i) = Some next ->
  isLocked (completeInCourse lessonId userCode course) (S i) = Some false.
Proof.
  intros Hl Hid Hn.
  set (course' := completeInCourse lessonId userCode course).
  assert (Hn' : nth_error (allLessons course') (S i)
                = Some (markCompleted lessonId userCode next)).
  { unfold course'. rewrite allLessons_completeInCourse.
    apply map_nth_error. exact Hn. }
  assert (Hl' : nth_error (allLessons course') i
                = Some (markCompleted lessonId userCode l)).
  { unfold course'. rewrite allLessons_completeInCourse.
    apply map_nth_error. exact Hl. }
  rewrite (isLocked_unfold course' (S i) _ Hn').
  replace (S i - 1)%nat with i by lia. rewrite Hl'.
  destruct (markCompleted_same lessonId userCode l Hid) as [C _].
  rewrite C. reflexivity.
Qed.

Lemma completeInCourse_unlocks_following_witness :
  isLocked (completeInCourse (lit "les-0-1") (lit "<p></p>") demoCourse) 2
  = Some false.
Proof.
  apply (completeInCourse_unlocks_following (lit "les-0-1") (lit "<p></p>")
           demoCourse 1 (lesson_of "les-0-1" false)
           (lesson_of "les-1-0" false)); reflexivity.
Defined.

(** X21: With lesson ids that are all different, completing the lesson that
    [getNextLesson] answers moves the answer on to the next lesson after it
    that is not completed. *)
Theorem completeInCourse_advances_next (userCode : jsstring)
    (course : Course.t) (l : Lesson.t) :
  NoDup (List.map Lesson.id (allLessons course)) ->
  getNextLesson course = Some l ->
  exists pre post,
    allLessons course = pre ++ l :: post
    /\ getNextLesson (completeInCourse (Lesson.id l) userCode course)
       = firstOpenLesson post.
Proof.
  intros ND H. rewrite getNextLesson_flat in H.
  destruct (firstOpenLesson_some _ _ H) as (pre & post & E & F & C).
  exists pre, post. split; [exact E|].
  rewrite getNextLesson_flat, allLessons_completeInCourse, E.
  rewrite E, map_app in ND. cbn [map] in ND.
  rewrite map_app. cbn [map]. rewrite firstOpenLesson_app.
  assert (Kpre : firstOpenLesson
                   (map (markCompleted (Lesson.id l) userCode) pre) = None).
  { apply firstOpenLesson_none. apply Forall_forall. intros x Hx.
    apply in_map_iff in Hx as (y & <- & Hy).
    apply markCompleted_keeps_completed.
    rewrite Forall_forall in F. auto. }
  rewrite Kpre. cbn [firstOpenLesson].
  destruct (markCompleted_same (Lesson.id l) userCode l eq_refl) as [Cl _].
  rewrite Cl. cbn [negb]. f_equal.
  rewrite <- (map_id post) at 2. apply map_ext_in. intros x Hx.
  apply markCompleted_other. intros Ex.
  apply NoDup_remove_2 in ND. apply ND. apply in_or_app. right.
  rewrite <- Ex. apply in_map. exact Hx.
Qed.

Lemma completeInCourse_advances_next_witness :
  exists pre post,
    allLessons demoCourse = pre ++ lesson_of "les-0-1" false :: post
    /\ getNextLesson
         (completeInCourse (Lesson.id (lesson_of "les-0-1" false))
            (lit "<p></p>") demoCourse)
       = firstOpenLesson post.
Proof.
  apply completeInCourse_advances_next; [|reflexivity].
  repeat constructor; simpl; intuition discriminate.
Defined.

(* ================================================================== *)
(** * A generated course *)
(* ================================================================== *)

Lemma nth_error_mapiFrom {A B : Type} (f : nat -> A -> B) (s : nat)
    (l : list A) (k : nat) :
  nth_error (mapiFrom f s l) k = option_map (f (s + k)%nat) (nth_error l k).
Proof.
  revert s k; induction l as [|x l IH]; intros s [|k]; simpl; auto.
  - rewrite Nat.add_0_r. reflexivity.
  - rewrite IH. replace (S s + k)%nat with (s + S k)%nat by lia. reflexivity.
Qed.

Lemma length_mapiFrom {A B : Type} (f : nat -> A -> B) (s : nat)
    (l : list A) :
  length (mapiFrom f s l) = length l.
Proof.
  revert s; induction l as [|x l IH]; intros s; simpl; auto.
Qed.

Lemma In_mapiFrom {A B : Type} (f : nat -> A -> B) (s : nat) (l : list A)
    (y : B) :
  In y (mapiFrom f s l) -> exists k x, In x l /\ y = f k x.
Proof.
  revert s; induction l as [|x l IH]; intros s; simpl; [tauto|].
  intros [<- | H].
  - exists s, x. auto.
  - destruct (IH _ H) as (k & x' & Hx & ->). exists k, x'. auto.
Qed.

Lemma orDefault_not_nil (a b : jsstring) : b <> [] -> orDefault a b <> [].
Proof. destruct a; simpl; [auto | discriminate]. Qed.

Section ProcessCourse.

Variable data : Course.t.
Variable uuid : jsstring.
Variables now now' : Z.
Variables visualDescription previewImage : option jsstring.

Local Abbreviation course' :=
  (processCourse data uuid now now' visualDescription previewImage).

Lemma processCourse_lessons_open :
  Forall (fun l => Lesson.completed l = false) (allLessons course').
Proof.
  apply Forall_forall. intros l H. unfold allLessons in H.
  apply in_flat_map in H as (m & Hm & Hl).
  cbn [processCourse Course.modules] in Hm.
  apply In_mapiFrom in Hm as (i & m0 & _ & ->).
  cbn [processModule CourseModule.lessons] in Hl.
  apply In_mapiFrom in Hl as (j & l0 & _ & ->). reflexivity.
Qed.

(** X22: What processing does to the lesson at place [j] of the module at place
    [i]: it is there in the processed course, not completed, with an id that
    is not empty (its own when it had one) and its other texts kept; its
    initial code is kept, except that the first lesson of the first module
    starts empty when its code was longer than 50 code units. *)
Theorem processCourse_lesson (i j : nat) (m : CourseModule.t) (l : Lesson.t) :
  nth_error (Course.modules data) i = Some m ->
  nth_error (CourseModule.lessons m) j = Some l ->
  exists m' l',
    nth_error (Course.modules course') i = Some m'
    /\ nth_error (CourseModule.lessons m') j = Some l'
    /\ length (CourseModule.lessons m') = length (CourseModule.lessons m)
    /\ CourseModule.id m' <> []
    /\ (CourseModule.id m <> [] -> CourseModule.id m' = CourseModule.id m)
    /\ Lesson.id l' <> []
    /\ (Lesson.id l <> [] -> Lesson.id l' = Lesson.id l)
    /\ Lesson.completed l' = false
    /\ Lesson.instructions l' = Lesson.instructions l
    /\ Lesson.solutionCode l' = Lesson.solutionCode l
    /\ (length (Lesson.initialCode l') <= length (Lesson.initialCode l))%nat
    /\ ((i <> 0 \/ j <> 0 \/ length (Lesson.initialCode l) <= 50)%nat ->
        Lesson.initialCode l' = Lesson.initialCode l)
    /\ ((i = 0 /\ j = 0 /\ 50 < length (Lesson.initialCode l))%nat ->
        Lesson.initialCode l' = []).
Proof.
  intros Hm Hl. exists (processModule i m), (processLesson i j l).
  split; [|split].
  - cbn [processCourse Course.modules]. unfold mapi.
    rewrite nth_error_mapiFrom, Hm. reflexivity.
  - cbn [processModule CourseModule.lessons]. unfold mapi.
    rewrite nth_error_mapiFrom, Hl. reflexivity.
  - cbn [processModule processLesson CourseModule.lessons CourseModule.id
         Lesson.id Lesson.completed Lesson.instructions Lesson.solutionCode
         Lesson.initialCode].
    split; [apply length_mapiFrom|].
    split; [apply orDefault_not_nil; discriminate|].
    split; [destruct (CourseModule.id m); [congruence | reflexivity]|].
    split; [apply orDefault_not_nil; discriminate|].
    split; [destruct (Lesson.id l); [congruence | reflexivity]|].
    split; [reflexivity|]. split; [reflexivity|]. split; [reflexivity|].
    destruct (Nat.eqb_spec i 0), (Nat.eqb_spec j 0),
      (Nat.ltb_spec 50 (length (Lesson.initialCode l)));
      destruct (Lesson.initialCode l) as [|c cs] eqn:IC;
      cbn [andb orb length]; repeat split; intros; try reflexivity;
      try lia; cbn [length] in *; lia.
Qed.

(** X23: A course fresh from generation has exactly its first lesson open: no
    lesson is completed, so [getNextLesson] answers the first lesson of the
    map, which is not locked, and every lesson after it is locked. *)
Theorem processCourse_first_lesson_open :
  getNextLesson course' = nth_error (allLessons course') 0
  /\ (allLessons course' <> [] -> isLocked course' 0 = Some false)
  /\ (forall i, (0 < i < length (allLessons course'))%nat ->
        isLocked course' i = Some true).
Proof.
  pose proof processCourse_lessons_open as F.
  rewrite getNextLesson_flat. split; [|split].
  - destruct (allLessons course') as [|l ls]; [reflexivity|].
    inversion F as [|? ? C _]; subst. simpl. rewrite C. reflexivity.
  - intros NE. destruct (allLessons course') as [|l ls] eqn:E;
      [contradiction|].
    rewrite (isLocked_unfold course' 0 l) by (rewrite E; reflexivity).
    reflexivity.
  - intros i [Hi Hlt]. rewrite Forall_forall in F.
    destruct (nth_error (allLessons course') i) as [l|] eqn:E;
      [|apply nth_error_None in E; lia].
    destruct (nth_error (allLessons course') (i - 1)) as [p|] eqn:Ep;
      [|apply nth_error_None in Ep; lia].
    rewrite (isLocked_unfold course' i l E), Ep.
    rewrite (F l (nth_error_In _ _ E)), (F p (nth_error_In _ _ Ep)).
    replace (i =? 0)%nat with false by (symmetry; apply Nat.eqb_neq; lia).
    rewrite andb_false_r. reflexivity.
Qed.

End ProcessCourse.

Lemma processCourse_lesson_witness :
  exists m' l',
    nth_error (Course.modules (processCourse demoCourse (lit "uuid") 7 8 None
                                 None)) 1 = Some m'
    /\ nth_error (CourseModule.lessons m') 0 = Some l'
    /\ Lesson.id l' = lit "les-1-0"
    /\ Lesson.completed l' = false.
Proof.
  destruct (processCourse_lesson demoCourse (lit "uuid") 7 8 None None 1 0
              (CourseModule.mk (lit "mod-1") [] [] [lesson_of "les-1-0" false])
              (lesson_of "les-1-0" false) eq_refl eq_refl)
    as (m' & l' & H1 & H2 & _ & _ & _ & _ & H3 & H4 & _).
  exists m', l'. split; [exact H1|]. split; [exact H2|].
  split; [apply H3; discriminate | exact H4].
Defined.

Lemma processCourse_first_lesson_open_witness :
  isLocked (processCourse demoCourse (lit "uuid") 7 8 None None) 1 = Some true.
Proof.
  destruct (processCourse_first_lesson_open demoCourse (lit "uuid") 7 8
              None None) as (_ & _ & H).
  apply H. simpl. lia.
Defined.

(* ================================================================== *)
(** * Browser storage *)
(* ================================================================== *)

(** ** Sorting *)

Lemma insertDesc_perm {A : Type} (key : A -> Z) (x : A) (l : list A) :
  Permutation (insertDesc key x l) (x :: l).
Proof.
  induction l as [|y l IH]; simpl; [reflexivity|].
  destruct (key x <? key y)%Z; [|reflexivity].
  rewrite IH. apply perm_swap.
Qed.

Lemma sortDesc_perm {A : Type} (key : A -> Z) (l : list A) :
  Permutation (sortDesc key l) l.
Proof.
  induction l as [|x l IH]; simpl; [reflexivity|].
  rewrite insertDesc_perm. constructor. exact IH.
Qed.

Lemma insertDesc_sorted {A : Type} (key : A -> Z) (x : A) (l : list A) :
  sortedDesc key l -> sortedDesc key (insertDesc key x l).
Proof.
  unfold sortedDesc. induction 1 as [|y l S IH F]; simpl.
  - repeat constructor.
  - destruct (Z.ltb_spec (key x) (key y)).
    + constructor; [exact IH|].
      apply Forall_forall. intros z Hz.
      apply (Permutation_in _ (insertDesc_perm key x l)) in Hz.
      destruct Hz as [<- | Hz]; [lia|].
      rewrite Forall_forall in F. auto.
    + constructor; [constructor; assumption|].
      constructor; [lia|].
      apply Forall_forall. intros z Hz. rewrite Forall_forall in F.
      specialize (F z Hz). lia.
Qed.

Lemma sortDesc_sorted {A : Type} (key : A -> Z) (l : list A) :
  sortedDesc key (sortDesc key l).
Proof.
  induction l as [|x l IH]; simpl; [constructor|].
  apply insertDesc_sorted. exact IH.
Qed.

Lemma insertDesc_stable {A : Type} (key : A -> Z) (k : Z) (x : A)
    (l : list A) :
  sortedDesc key l ->
  filter (fun y => (key y =? k)%Z) (insertDesc key x l)
  = filter (fun y => (key y =? k)%Z) (x :: l).
Proof.
  unfold sortedDesc. induction 1 as [|y l S IH F]; [reflexivity|].
  cbn [insertDesc]. destruct (Z.ltb_spec (key x) (key y)); [|reflexivity].
  cbn [filter] in *. rewrite IH.
  destruct (Z.eqb_spec (key x) k), (Z.eqb_spec (key y) k);
    try reflexivity. lia.
Qed.

Lemma sortDesc_stable {A : Type} (key : A -> Z) (k : Z) (l : list A) :
  filter (fun y => (key y =? k)%Z) (sortDesc key l)
  = filter (fun y => (key y =? k)%Z) l.
Proof.
  induction l as [|x l IH]; [reflexivity|].
  cbn [sortDesc]. rewrite insertDesc_stable by apply sortDesc_sorted.
  cbn [filter]. rewrite IH. reflexivity.
Qed.

Lemma sortedDesc_head {A : Type} (key : A -> Z) (x : A) (l : list A) :
  sortedDesc key l -> In x l ->
  (forall y, In y l -> y = x \/ (key y < key x)%Z) ->
  hd_error l = Some x.
Proof.
  intros S I M. destruct l as [|h t]; [destruct I|].
  simpl. f_equal. destruct I as [E | I]; [exact E|].
  inversion S as [|? ? _ F]; subst. rewrite Forall_forall in F.
  specialize (F x I).
  destruct (M h (or_introl eq_refl)) as [E | L]; [exact E | lia].
Qed.

(** ** Courses in storage *)

Lemma findCourse_app (id : jsstring) (l1 l2 : list Course.t) :
  findCourse id (l1 ++ l2)
  = match findCourse id l1 with
    | Some c => Some c
    | None => findCourse id l2
    end.
Proof.
  unfold findCourse. induction l1 as [|c l1 IH]; simpl; [reflexivity|].
  destruct (jseqb (Course.id c) id); [reflexivity | exact IH].
Qed.

Lemma findCourse_none (id : jsstring) (cs : list Course.t) :
  findCourse id cs = None <-> forall c, In c cs -> Course.id c <> id.
Proof.
  unfold findCourse. split.
  - intros H c I E. apply (find_none _ _ H) in I.
    apply jseqb_eq in E. congruence.
  - intros H. induction cs as [|c cs IH]; simpl; [reflexivity|].
    destruct (jseqb (Course.id c) id) eqn:E.
    + apply jseqb_eq in E. destruct (H c (or_introl eq_refl) E).
    + apply IH. intros c' I. apply H. right; exact I.
Qed.

Lemma findCourseIndex_none (id : jsstring) (cs : list Course.t) :
  findCourseIndex id cs = None <-> findCourse id cs = None.
Proof.
  unfold findCourse. induction cs as [|c cs IH]; simpl; [tauto|].
  destruct (jseqb (Course.id c) id); [split; discriminate|].
  rewrite <- IH. destruct (findCourseIndex id cs); simpl;
    split; congruence.
Qed.

Lemma findCourseIndex_some (id : jsstring) (cs : list Course.t) (k : nat) :
  findCourseIndex id cs = Some k ->
  exists pre old post,
    cs = pre ++ old :: post /\ length pre = k /\ Course.id old = id
    /\ findCourse id pre = None
    /\ forall x, setNth cs k x = pre ++ x :: post.
Proof.
  revert k; induction cs as [|c cs IH]; simpl; [discriminate|].
  intros k. destruct (jseqb (Course.id c) id) eqn:E.
  - intros H. injection H as <-. apply jseqb_eq in E.
    exists [], c, cs. repeat split; auto.
  - destruct (findCourseIndex id cs) as [k'|]; [|discriminate].
    simpl. intros H. injection H as <-.
    destruct (IH k' eq_refl) as (pre & old & post & -> & L & I & N & S).
    exists (c :: pre), old, post. simpl. repeat split; auto.
    + unfold findCourse in *. simpl. rewrite E. exact N.
    + intros x. rewrite S. reflexivity.
Qed.

Lemma touch_id (c : Course.t) (a b : Z) : Course.id (touch c a b) = Course.id c.
Proof. reflexivity. Qed.

Lemma findCourse_cons_same (id : jsstring) (c : Course.t)
    (cs : list Course.t) :
  Course.id c = id -> findCourse id (c :: cs) = Some c.
Proof.
  intros E. unfold findCourse. simpl. apply jseqb_eq in E. rewrite E.
  reflexivity.
Qed.

Lemma findCourse_cons_other (id : jsstring) (c : Course.t)
    (cs : list Course.t) :
  Course.id c <> id -> findCourse id (c :: cs) = findCourse id cs.
Proof.
  intros E. unfold findCourse. simpl.
  destruct (jseqb (Course.id c) id) eqn:J; [|reflexivity].
  apply jseqb_eq in J. contradiction.
Qed.

(** X25: Saving a course into a storage that can be read and written is an
    insert-or-update by id: afterwards the course is found under its id with
    the time of the save as its last access (and as its creation time when
    it is new), every other id finds what it found before, and the ids stay
    in place: a course that was there keeps its position, a new one goes to
    the end.  Ids that were all different stay so.  Settings and badges are
    not touched. *)
Theorem saveCourseToStorage_upsert
    (st : Storage.t) (course : Course.t) (now now' : Z)
    (cs : list Course.t) :
  Storage.writable st = true ->
  listOf (Storage.courses st) = Some cs ->
  exists cs',
    Storage.courses (saveCourseToStorage st course now now') = Saved cs'
    /\ (exists created,
          findCourse (Course.id course) cs' = Some (touch course now created)
          /\ (findCourse (Course.id course) cs = None -> created = now')
          /\ (findCourse (Course.id course) cs <> None ->
              created = Course.createdAt course))
    /\ (forall id, id <> Course.id course ->
          findCourse id cs' = findCourse id cs)
    /\ (findCourse (Course.id course) cs <> None ->
        List.map Course.id cs' = List.map Course.id cs)
    /\ (findCourse (Course.id course) cs = None ->
        cs' = cs ++ [touch course now now'])
    /\ (NoDup (List.map Course.id cs) -> NoDup (List.map Course.id cs'))
    /\ Storage.settings (saveCourseToStorage st course now now')
       = Storage.settings st
    /\ Storage.badges (saveCourseToStorage st course now now')
       = Storage.badges st.
Proof.
  intros W L. unfold saveCourseToStorage.
  fold (listOf (Storage.courses st)). rewrite L, W. cbv zeta.
  destruct (findCourseIndex (Course.id course) cs) as [k|] eqn:E.
  - destruct (findCourseIndex_some _ _ _ E)
      as (pre & old & post & -> & Lk & I & N & S).
    rewrite S. eexists. split; [reflexivity|].
    assert (P : findCourse (Course.id course) (pre ++ old :: post) <> None).
    { rewrite findCourse_app, N, findCourse_cons_same by exact I.
      discriminate. }
    split; [|split; [|split; [|split; [|split; [|split]]]]].
    + exists (Course.createdAt course). split; [|split].
      * rewrite findCourse_app, N. apply findCourse_cons_same. reflexivity.
      * intros H. contradiction.
      * reflexivity.
    + intros id D. rewrite !findCourse_app.
      destruct (findCourse id pre); [reflexivity|].
      rewrite !findCourse_cons_other; [reflexivity | congruence |].
      rewrite touch_id. congruence.
    + intros _. rewrite !map_app. cbn [map]. rewrite touch_id, I.
      reflexivity.
    + intros H. contradiction.
    + rewrite !map_app. cbn [map]. rewrite touch_id, I. auto.
    + reflexivity.
    + reflexivity.
  - apply findCourseIndex_none in E. eexists. split; [reflexivity|].
    split; [|split; [|split; [|split; [|split; [|split]]]]].
    + exists now'. split; [|split].
      * rewrite findCourse_app, E. apply findCourse_cons_same. reflexivity.
      * reflexivity.
      * intros H. contradiction.
    + intros id D. rewrite findCourse_app.
      destruct (findCourse id cs); [reflexivity|].
      rewrite findCourse_cons_other; [reflexivity|].
      rewrite touch_id. congruence.
    + intros H. contradiction.
    + reflexivity.
    + intros ND. rewrite map_app. cbn [map]. rewrite touch_id.
      apply NoDup_app; [exact ND | repeat constructor; intros [] |].
      intros x Hx [<- | []]. apply in_map_iff in Hx as (c & Ec & Ic).
      apply (proj1 (findCourse_none _ _) E c Ic). exact Ec.
    + reflexivity.
    + reflexivity.
Qed.

Lemma saveCourseToStorage_upsert_witness :
  exists cs',
    Storage.courses
      (saveCourseToStorage (Storage.mk Empty Empty Empty true) demoCourse
         100 101) = Saved cs'
    /\ cs' = [] ++ [touch demoCourse 100 101].
Proof.
  destruct (saveCourseToStorage_upsert (Storage.mk Empty Empty Empty true)
              demoCourse 100 101 [] eq_refl eq_refl)
    as (cs' & H & _ & _ & _ & K & _).
  exists cs'. split; [exact H|]. apply K. reflexivity.
Defined.

(** A storage whose course entry cannot be read, or that cannot be written,
    is left as it is by saving and by deleting; reading from an entry that
    is missing or cannot be read gives the empty list. *)
Theorem storage_failures_change_nothing
    (st : Storage.t) (course : Course.t) (now now' : Z) (id : jsstring) :
  (Storage.courses st = Broken \/ Storage.writable st = false ->
   saveCourseToStorage st course now now' = st
   /\ deleteCourseFromStorage st id = (st, []))
  /\ (Storage.courses st = Broken \/ Storage.courses st = Empty ->
      getSavedCourses st = []
      /\ deleteCourseFromStorage st id = (st, [])).
Proof.
  split.
  - intros [B | W]; unfold saveCourseToStorage, deleteCourseFromStorage.
    + rewrite B. auto.
    + rewrite W. destruct (Storage.courses st); auto.
  - intros [B | B]; unfold getSavedCourses, deleteCourseFromStorage;
      rewrite B; auto.
Qed.

Lemma storage_failures_change_nothing_witness :
  saveCourseToStorage (Storage.mk Broken Empty Empty true) demoCourse 1 2
  = Storage.mk Broken Empty Empty true.
Proof.
  destruct (storage_failures_change_nothing
              (Storage.mk Broken Empty Empty true) demoCourse 1 2 [])
    as (H & _).
  apply H. left. reflexivity.
Defined.

(** X26: The saved courses are listed by decreasing time of last access (a
    course without one counts as 0), courses of equal time in their stored
    order; nothing is lost or added. *)
Theorem getSavedCourses_sorted (st : Storage.t) (cs : list Course.t) :
  Storage.courses st = Saved cs ->
  Permutation (getSavedCourses st) cs
  /\ sortedDesc lastAccessedOr0 (getSavedCourses st)
  /\ forall t,
       filter (fun c => (lastAccessedOr0 c =? t)%Z) (getSavedCourses st)
       = filter (fun c => (lastAccessedOr0 c =? t)%Z) cs.
Proof.
  intros E. unfold getSavedCourses. rewrite E. split; [|split].
  - apply sortDesc_perm.
  - apply sortDesc_sorted.
  - intros t. apply sortDesc_stable.
Qed.

Lemma getSavedCourses_sorted_witness :
  Permutation
    (getSavedCourses
       (Storage.mk (Saved [demoCourse; touch demoCourse 5 0]) Empty Empty
          true))
    [demoCourse; touch demoCourse 5 0].
Proof.
  apply (getSavedCourses_sorted
           (Storage.mk (Saved [demoCourse; touch demoCourse 5 0]) Empty Empty
              true) [demoCourse; touch demoCourse 5 0] eq_refl).
Defined.

(** X27: A course saved later than every stored course was accessed is listed
    first. *)
Theorem saved_course_listed_first
    (st : Storage.t) (course : Course.t) (now now' : Z)
    (cs : list Course.t) :
  Storage.writable st = true ->
  listOf (Storage.courses st) = Some cs ->
  (forall c, In c cs -> (lastAccessedOr0 c < now)%Z) ->
  exists created,
    hd_error (getSavedCourses (saveCourseToStorage st course now now'))
    = Some (touch course now created).
Proof.
  intros W L M. unfold saveCourseToStorage.
  fold (listOf (Storage.courses st)). rewrite L, W. cbv zeta.
  unfold getSavedCourses. cbn [setCourses Storage.courses].
  destruct (findCourseIndex (Course.id course) cs) as [k|] eqn:E.
  - destruct (findCourseIndex_some _ _ _ E)
      as (pre & old & post & -> & _ & _ & _ & S).
    rewrite S. exists (Course.createdAt course).
    apply (sortedDesc_head lastAccessedOr0); [apply sortDesc_sorted | |].
    + apply (Permutation_in _ (Permutation_sym (sortDesc_perm _ _))).
      apply in_or_app. right. left. reflexivity.
    + intros y Hy. apply (Permutation_in _ (sortDesc_perm _ _)) in Hy.
      apply in_app_or in Hy as [Hy | [Hy | Hy]]; [right | left | right];
        [|congruence|]; cbn; apply M; apply in_or_app; [left | right; right];
        exact Hy.
  - exists now'.
    apply (sortedDesc_head lastAccessedOr0); [apply sortDesc_sorted | |].
    + apply (Permutation_in _ (Permutation_sym (sortDesc_perm _ _))).
      apply in_or_app. right. left. reflexivity.
    + intros y Hy. apply (Permutation_in _ (sortDesc_perm _ _)) in Hy.
      apply in_app_or in Hy as [Hy | [Hy | []]]; [right | left];
        [cbn; apply M; exact Hy | congruence].
Qed.

Lemma saved_course_listed_first_witness :
  exists created,
    hd_error
      (getSavedCourses
         (saveCourseToStorage
            (Storage.mk (Saved [touch demoCourse 5 0]) Empty Empty true)
            (Course.mk (lit "course-2") [] [] [] None None [] None 0) 9 10))
    = Some (touch (Course.mk (lit "course-2") [] [] [] None None [] None 0)
              9 created).
Proof.
  apply (saved_course_listed_first
           (Storage.mk (Saved [touch demoCourse 5 0]) Empty Empty true)
           (Course.mk (lit "course-2") [] [] [] None None [] None 0) 9 10
           [touch demoCourse 5 0]); [reflexivity | reflexivity |].
  intros c [<- | []]. cbn. lia.
Defined.

(** X28: Deleting by id, on a storage that can be read and written: the list
    returned is the list stored; no course of that id is left, every course
    of another id stays, in order; and deleting a course just saved under an
    id that was not there gives the former list back. *)
Theorem deleteCourseFromStorage_removes
    (st : Storage.t) (courseId : jsstring) (cs : list Course.t) :
  Storage.writable st = true ->
  Storage.courses st = Saved cs ->
  let '(st', remaining) := deleteCourseFromStorage st courseId in
  Storage.courses st' = Saved remaining
  /\ findCourse courseId remaining = None
  /\ (forall id, id <> courseId ->
        findCourse id remaining = findCourse id cs)
  /\ Subseq remaining cs
  /\ (forall c, In c cs -> Course.id c <> courseId -> In c remaining)
  /\ (forall course now now',
        Course.id course = courseId -> findCourse courseId cs = None ->
        snd (deleteCourseFromStorage
               (saveCourseToStorage st course now now') courseId) = cs).
Proof.
  intros W E. unfold deleteCourseFromStorage. rewrite E, W.
  split; [reflexivity|]. split; [|split; [|split; [|split]]].
  - apply findCourse_none. intros c I. apply filter_In in I as [_ I].
    apply negb_true_iff in I. intros K. apply jseqb_eq in K. congruence.
  - intros id D. unfold findCourse.
    induction cs as [|c cs IH] in |- *; simpl; [reflexivity|].
    destruct (jseqb (Course.id c) courseId) eqn:J; simpl.
    + apply jseqb_eq in J.
      destruct (jseqb (Course.id c) id) eqn:J'; [|exact IH].
      apply jseqb_eq in J'. congruence.
    + destruct (jseqb (Course.id c) id); [reflexivity | exact IH].
  - apply filter_Subseq.
  - intros c I D. apply filter_In. split; [exact I|].
    apply negb_true_iff. destruct (jseqb (Course.id c) courseId) eqn:J;
      [|reflexivity]. apply jseqb_eq in J. contradiction.
  - intros course now now' I N. unfold saveCourseToStorage. rewrite E, W.
    apply findCourseIndex_none in N. rewrite <- I in N. rewrite N. cbv zeta.
    cbn [setCourses Storage.courses Storage.writable]. rewrite W. cbn [snd].
    rewrite filter_app. cbn [filter]. rewrite touch_id.
    replace (jseqb (Course.id course) courseId) with true
      by (symmetry; apply jseqb_eq; exact I).
    cbn [negb]. rewrite app_nil_r.
    rewrite I in N. apply findCourseIndex_none in N.
    rewrite <- (filter_ext_in (fun _ => true)).
    + clear. induction cs as [|c cs IH]; simpl; congruence.
    + intros c Ic. symmetry. apply negb_true_iff.
      destruct (jseqb (Course.id c) courseId) eqn:J; [|reflexivity].
      apply jseqb_eq in J.
      destruct (proj1 (findCourse_none _ _) N c Ic J).
Qed.

Lemma deleteCourseFromStorage_removes_witness :
  let '(st', remaining) :=
    deleteCourseFromStorage (Storage.mk (Saved [demoCourse]) Empty Empty true)
      (lit "course-1") in
  Storage.courses st' = Saved remaining
  /\ findCourse (lit "course-1") remaining = None.
Proof.
  pose proof (deleteCourseFromStorage_removes
                (Storage.mk (Saved [demoCourse]) Empty Empty true)
                (lit "course-1") [demoCourse] eq_refl eq_refl) as H.
  destruct (deleteCourseFromStorage _ _) as [st' remaining].
  destruct H as (H1 & H2 & _). split; [exact H1 | exact H2].
Defined.

(** ** Settings and badges in storage *)

(** X29: Settings saved are the settings read back; a storage without
    settings, or with settings that cannot be read, gives the defaults; of
    settings stored with keys missing, every key that is present is used and
    every key that is missing takes its default (tips, insertion hints and
    automatic indentation on, theme zephyr, learner mode off, balanced
    detail, no skipping). *)
Theorem settings_round_trip (st : Storage.t) (s : AppSettings.t) :
  (Storage.writable st = true ->
   getSettingsFromStorage (saveSettingsToStorage st s) = s)
  /\ (Storage.settings st = Empty \/ Storage.settings st = Broken ->
      getSettingsFromStorage st
      = AppSettings.mk true true true zephyr false balanced false)
  /\ (forall p, Storage.settings st = Saved p ->
        AppSettings.showTips (getSettingsFromStorage st)
        = match StoredSettings.showTips p with
          | Some v => v
          | None => true
          end
        /\ AppSettings.showInsertionHints (getSettingsFromStorage st)
           = match StoredSettings.showInsertionHints p with
             | Some v => v
             | None => true
             end
        /\ AppSettings.autoIndent (getSettingsFromStorage st)
           = match StoredSettings.autoIndent p with
             | Some v => v
             | None => true
             end
        /\ AppSettings.theme (getSettingsFromStorage st)
           = match StoredSettings.theme p with
             | Some v => v
             | None => zephyr
             end
        /\ AppSettings.learnerMode (getSettingsFromStorage st)
           = match StoredSettings.learnerMode p with
             | Some v => v
             | None => false
             end
        /\ AppSettings.detailLevel (getSettingsFromStorage st)
           = match StoredSettings.detailLevel p with
             | Some v => v
             | None => balanced
             end
        /\ AppSettings.allowSkipping (getSettingsFromStorage st)
           = match StoredSettings.allowSkipping p with
             | Some v => v
             | None => false
             end).
Proof.
  split; [|split].
  - intros W. unfold saveSettingsToStorage, getSettingsFromStorage.
    rewrite W. destruct s. reflexivity.
  - intros [E | E]; unfold getSettingsFromStorage; rewrite E; reflexivity.
  - intros p E. unfold getSettingsFromStorage. rewrite E.
    destruct p as [a b c d e f g].
    destruct a, b, c, d, e, f, g; repeat split; reflexivity.
Qed.

Lemma settings_round_trip_witness :
  getSettingsFromStorage
    (saveSettingsToStorage (Storage.mk Empty Empty Empty true)
       (AppSettings.mk false true false ocean true verbose true))
  = AppSettings.mk false true false ocean true verbose true
  /\ AppSettings.theme
       (getSettingsFromStorage
          (Storage.mk Empty
             (Saved (StoredSettings.mk None None None (Some forest) None None
                       None)) Empty true))
     = forest.
Proof.
  split.
  - destruct (settings_round_trip (Storage.mk Empty Empty Empty true)
                (AppSettings.mk false true false ocean true verbose true))
      as (H & _).
    apply H. reflexivity.
  - destruct (settings_round_trip
                (Storage.mk Empty
                   (Saved (StoredSettings.mk None None None (Some forest) None
                             None None)) Empty true) defaults)
      as (_ & _ & H).
    destruct (H _ eq_refl) as (_ & _ & _ & K & _). exact K.
Defined.

(** Saving a badge appends it to the stored badges and returns the new
    list; listing the badges afterwards gives the former badges and the new
    one, by decreasing time of award. *)
Theorem saveBadgeToStorage_appends
    (st : Storage.t) (badge : Badge.t) (bs : list Badge.t) :
  Storage.writable st = true ->
  listOf (Storage.badges st) = Some bs ->
  let '(st', returned) := saveBadgeToStorage st badge in
  returned = bs ++ [badge]
  /\ Storage.badges st' = Saved returned
  /\ Storage.courses st' = Storage.courses st
  /\ Permutation (getSavedBadges st') (badge :: bs)
  /\ sortedDesc Badge.awardedAt (getSavedBadges st').
Proof.
  intros W L. unfold saveBadgeToStorage.
  fold (listOf (Storage.badges st)). rewrite L, W.
  split; [reflexivity|]. split; [reflexivity|]. split; [reflexivity|].
  unfold getSavedBadges. cbn [setBadges Storage.badges]. split.
  - rewrite sortDesc_perm. rewrite Permutation_app_comm. reflexivity.
  - apply sortDesc_sorted.
Qed.

Lemma saveBadgeToStorage_appends_witness :
  let b := Badge.mk (lit "b1") (lit "First") [] [] 42 in
  let '(st', returned) :=
    saveBadgeToStorage (Storage.mk Empty Empty Empty true) b in
  returned = [] ++ [b] /\ Storage.badges st' = Saved returned.
Proof.
  intros b.
  pose proof (saveBadgeToStorage_appends (Storage.mk Empty Empty Empty true)
                b [] eq_refl eq_refl) as H.
  destruct (saveBadgeToStorage _ _) as [st' returned].
  destruct H as (H1 & H2 & _). split; [exact H1 | exact H2].
Defined.

(* ================================================================== *)
(** * Automatic indentation *)
(* ================================================================== *)

Lemma substring_between (s : jsstring) (a b : Z) :
  (0 <= a <= b)%Z -> (b <= Z.of_nat (length s))%Z ->
  substring s a b = skipn (Z.to_nat a) (firstn (Z.to_nat b) s).
Proof.
  intros Hab Hb. unfold substring. cbv zeta.
  replace (Z.max a 0) with a by lia. replace (Z.max b 0) with b by lia.
  replace (Z.min a (Z.of_nat (length s))) with a by lia.
  replace (Z.min b (Z.of_nat (length s))) with b by lia.
  replace (Z.min a b) with a by lia. replace (Z.max a b) with b by lia.
  rewrite firstn_skipn_comm. f_equal. f_equal. lia.
Qed.

Lemma substring_prefix (s : jsstring) (b : Z) :
  (0 <= b <= Z.of_nat (length s))%Z ->
  substring s 0 b = firstn (Z.to_nat b) s.
Proof. intros H. rewrite substring_between by lia. reflexivity. Qed.

Lemma substring_suffix (s : jsstring) (a : Z) :
  (0 <= a <= Z.of_nat (length s))%Z ->
  substring s a (Z.of_nat (length s)) = skipn (Z.to_nat a) s.
Proof.
  intros H. rewrite substring_between by lia.
  rewrite Nat2Z.id, firstn_all. reflexivity.
Qed.

Lemma lastOccurrence_spec (s : jsstring) (c : jschar) (i acc : Z) :
  (lastOccurrence s c i acc = acc /\ ~ In c s)
  \/ exists pre post,
       s = pre ++ c :: post /\ ~ In c post
       /\ lastOccurrence s c i acc = (i + Z.of_nat (length pre))%Z.
Proof.
  revert i acc; induction s as [|d s IH]; intros i acc; simpl.
  - left. auto.
  - destruct (IH (i + 1)%Z (if (d =? c)%N then i else acc))
      as [[E N] | (pre & post & -> & N & E)].
    + destruct (N.eqb_spec d c) as [-> | D].
      * right. exists [], s. simpl. repeat split; auto. lia.
      * left. split; [exact E|]. intros [K | K]; auto.
    + right. exists (d :: pre), post. simpl. repeat split; auto. lia.
Qed.

Lemma leadingWhiteSpace_white (s : jsstring) :
  forallb isWhiteSpace (leadingWhiteSpace s) = true.
Proof.
  induction s as [|c s IH]; simpl; [reflexivity|].
  destruct (isWhiteSpace c) eqn:E; simpl; [rewrite E; exact IH | reflexivity].
Qed.

Lemma leadingWhiteSpace_prefix (s : jsstring) :
  exists rest, s = leadingWhiteSpace s ++ rest.
Proof.
  induction s as [|c s [rest IH]]; simpl; [exists []; reflexivity|].
  destruct (isWhiteSpace c); [|exists (c :: s); reflexivity].
  exists rest. simpl. congruence.
Qed.

Lemma leadingWhiteSpace_In (c : jschar) (s : jsstring) :
  In c (leadingWhiteSpace s) -> In c s.
Proof.
  destruct (leadingWhiteSpace_prefix s) as [rest E]. intros H.
  rewrite E. apply in_or_app. left. exact H.
Qed.

(** The line before a cursor inside the text: what follows the last line
    feed before the cursor. *)
Lemma currentLineAt_inside (value : jsstring) (start : Z) :
  (0 < start <= Z.of_nat (length value))%Z ->
  exists before,
    firstn (Z.to_nat start) value = before ++ currentLineAt value start
    /\ (before = [] \/ exists b, before = b ++ [NL])
    /\ ~ In NL (currentLineAt value start).
Proof.
  intros H. unfold currentLineAt, lastIndexOfChar. cbv zeta.
  rewrite Z.max_l, Z.min_l by lia.
  replace (start - 1 <? 0)%Z with false by (symmetry; apply Z.ltb_ge; lia).
  replace (start - 1 + 1)%Z with start by lia.
  destruct (lastOccurrence_spec (firstn (Z.to_nat start) value) NL 0 (-1))
    as [[E N] | (pre & post & E & N & R)].
  - rewrite E. change (-1 + 1)%Z with 0%Z.
    rewrite substring_prefix by lia. exists []. auto.
  - rewrite R. assert (L : length (firstn (Z.to_nat start) value)
                           = Z.to_nat start)
      by (apply firstn_length_le; lia).
    rewrite E, length_app in L. cbn [length] in L.
    rewrite substring_between by lia. rewrite E.
    replace (Z.to_nat (0 + Z.of_nat (length pre) + 1))
      with (length (pre ++ [NL])) by (rewrite length_app; simpl; lia).
    replace (pre ++ NL :: post) with ((pre ++ [NL]) ++ post)
      by (rewrite <- app_assoc; reflexivity).
    rewrite skipn_app, skipn_all, Nat.sub_diag. simpl.
    exists (pre ++ [NL]). repeat split; auto. right. exists pre. reflexivity.
Qed.

(** The line before a cursor at the very start: empty, unless the text
    begins with a line feed, which then is taken for the line. *)
Lemma currentLineAt_start (value : jsstring) :
  currentLineAt value 0
  = match value with
    | c :: _ => if (c =? NL)%N then [NL] else []
    | [] => []
    end.
Proof.
  unfold currentLineAt, lastIndexOfChar. cbv zeta.
  destruct value as [|c value]; [reflexivity|].
  change (Z.max (0 - 1) 0) with 0%Z.
  rewrite Z.min_l by (cbn [length]; lia).
  change (0 <? 0)%Z with false. cbv iota.
  change (Z.to_nat (0 + 1)) with 1%nat. cbn [firstn lastOccurrence].
  destruct (N.eqb_spec c NL) as [-> | D].
  - change (0 + 1)%Z with 1%Z. unfold substring. cbv zeta.
    assert (L : (1 <= Z.of_nat (length (NL :: value)))%Z)
      by (cbn [length]; lia).
    replace (Z.min (Z.max 1 0) (Z.of_nat (length (NL :: value)))) with 1%Z
      by lia.
    replace (Z.min (Z.max 0 0) (Z.of_nat (length (NL :: value)))) with 0%Z
      by lia.
    reflexivity.
  - change (-1 + 1)%Z with 0%Z. apply substring_prefix. cbn [length]. lia.
Qed.

Lemma tagRest_iff (s : jsstring) :
  tagRest s = true <-> exists mid, s = mid ++ [GT] /\ ~ In GT mid.
Proof.
  induction s as [|c s IH]; cbn [tagRest].
  - split; [discriminate|]. intros (mid & E & _).
    destruct mid; discriminate.
  - destruct s as [|d s'].
    + rewrite N.eqb_eq. split.
      * intros ->. exists []. auto.
      * intros (mid & E & _). destruct mid as [|m [|m' mid]];
          simpl in E; congruence.
    + rewrite andb_true_iff, negb_true_iff, N.eqb_neq, IH. split.
      * intros (D & mid & E & N). exists (c :: mid). rewrite E.
        split; [reflexivity|]. intros [K | K]; auto.
      * intros (mid & E & N). destruct mid as [|m mid].
        -- simpl in E. discriminate.
        -- simpl in E. injection E as <- E. split.
           ++ intros K. apply N. left. auto.
           ++ exists mid. split; [exact E|]. intros K. apply N. right. exact K.
Qed.

Lemma endsWithOpenTag_iff (s : jsstring) :
  endsWithOpenTag s = true <->
  exists pre c mid,
    s = pre ++ LT :: c :: mid ++ [GT] /\ c <> SLASH /\ ~ In GT mid.
Proof.
  assert (H : forall t, tagHere t = true <->
              exists c mid, t = LT :: c :: mid ++ [GT] /\ c <> SLASH
                            /\ ~ In GT mid).
  { intros [|c0 [|c1 rest]]; cbn [tagHere].
    - split; [discriminate | intros (c & mid & E & _); discriminate].
    - split; [discriminate | intros (c & mid & E & _); discriminate].
    - rewrite !andb_true_iff, negb_true_iff, N.eqb_eq, N.eqb_neq, tagRest_iff.
      split.
      + intros [[-> D] (mid & -> & N)]. exists c1, mid. auto.
      + intros (c & mid & E & D & N). injection E as -> -> ->.
        repeat split; auto. exists mid. auto. }
  induction s as [|x s IH]; cbn [endsWithOpenTag].
  - rewrite orb_false_r, H. split.
    + intros (c & mid & E & _). discriminate.
    + intros (pre & c & mid & E & _). destruct pre; discriminate.
  - rewrite orb_true_iff, H, IH. split.
    + intros [(c & mid & E & D & N) | (pre & c & mid & E & D & N)].
      * exists [], c, mid. auto.
      * exists (x :: pre), c, mid. rewrite E. auto.
    + intros (pre & c & mid & E & D & N). destruct pre as [|p pre].
      * left. exists c, mid. auto.
      * right. injection E as -> E. exists pre, c, mid. auto.
Qed.

(** X12: A line opens a block, so that the next line is indented two spaces
    more, exactly when, trimmed, it ends with an opening brace, parenthesis
    or bracket, or ends with a tag: a [<] followed by a character that is no
    slash and closed by the first [>] after it, which is the last character
    of the line. *)
Theorem opensBlock_iff (line : jsstring) :
  opensBlock line = true <->
  isSuffix (lit "{") (trim line)
  \/ isSuffix (lit "(") (trim line)
  \/ isSuffix (lit "[") (trim line)
  \/ exists pre c mid,
       trim line = pre ++ LT :: c :: mid ++ [GT]
       /\ c <> SLASH /\ ~ In GT mid.
Proof.
  unfold opensBlock.
  rewrite !orb_true_iff, !endsWith_iff, endsWithOpenTag_iff. tauto.
Qed.

(** X9: With automatic indentation or learner mode on, Enter replaces the
    selection by a line feed and the indentation: the text before the
    selection and the text after it are kept, the cursor is put right after
    the indentation, and the indentation is white space only.  Any other
    key, and Enter with both settings off, are left to the browser. *)
Theorem handleKeyDown_splice
    (autoIndent learnerMode : bool) (start end_ : Z) (value : jsstring) :
  (autoIndent || learnerMode = true ->
   (0 <= start <= end_)%Z -> (end_ <= Z.of_nat (length value))%Z ->
   exists newValue cursor,
     handleKeyDown autoIndent learnerMode (lit "Enter") start end_ value
     = Some (newValue, cursor)
     /\ newValue
        = firstn (Z.to_nat start) value
          ++ NL :: indentationAt value start ++ skipn (Z.to_nat end_) value
     /\ cursor
        = (start + 1 + Z.of_nat (length (indentationAt value start)))%Z
     /\ firstn (Z.to_nat cursor) newValue
        = firstn (Z.to_nat start) value ++ NL :: indentationAt value start
     /\ skipn (Z.to_nat cursor) newValue = skipn (Z.to_nat end_) value
     /\ Z.of_nat (length newValue)
        = (Z.of_nat (length value) - (end_ - start) + 1
           + Z.of_nat (length (indentationAt value start)))%Z
     /\ forallb isWhiteSpace (indentationAt value start) = true)
  /\ (forall key, key <> lit "Enter" ->
        handleKeyDown autoIndent learnerMode key start end_ value = None)
  /\ (forall key, handleKeyDown false false key start end_ value = None).
Proof.
  split; [|split].
  - intros On Hs He. unfold handleKeyDown. rewrite On. cbn [andb jseqb].
    replace (jseqb (lit "Enter") (lit "Enter")) with true by reflexivity.
    cbv zeta. rewrite substring_prefix, substring_suffix by lia.
    set (ind := indentationAt value start).
    set (pre := firstn (Z.to_nat start) value).
    set (post := skipn (Z.to_nat end_) value).
    assert (Lpre : length pre = Z.to_nat start)
      by (apply firstn_length_le; lia).
    assert (Lpost : length post = (length value - Z.to_nat end_)%nat)
      by apply length_skipn.
    assert (Lcur : Z.to_nat (start + 1 + Z.of_nat (length ind))
                   = length (pre ++ NL :: ind)).
    { rewrite length_app. cbn [length]. lia. }
    eexists _, _. split; [reflexivity|]. split; [reflexivity|].
    split; [reflexivity|]. split; [|split; [|split]].
    + rewrite Lcur.
      replace (pre ++ NL :: ind ++ post) with ((pre ++ NL :: ind) ++ post)
        by (rewrite <- app_assoc; reflexivity).
      rewrite firstn_app, firstn_all, Nat.sub_diag. simpl.
      apply app_nil_r.
    + rewrite Lcur.
      replace (pre ++ NL :: ind ++ post) with ((pre ++ NL :: ind) ++ post)
        by (rewrite <- app_assoc; reflexivity).
      rewrite skipn_app, skipn_all, Nat.sub_diag. reflexivity.
    + rewrite length_app. cbn [length]. rewrite length_app. lia.
    + unfold ind, indentationAt. cbv zeta. rewrite forallb_app.
      rewrite leadingWhiteSpace_white.
      destruct (opensBlock _); reflexivity.
  - intros key D. unfold handleKeyDown.
    destruct (jseqb key (lit "Enter")) eqn:E.
    + apply jseqb_eq in E. contradiction.
    + rewrite andb_false_r. reflexivity.
  - reflexivity.
Qed.

Lemma handleKeyDown_splice_witness :
  exists newValue cursor,
    handleKeyDown true false (lit "Enter") 7 9 (lit "  <div>ab")
    = Some (newValue, cursor)
    /\ newValue
       = firstn 7 (lit "  <div>ab")
         ++ NL :: indentationAt (lit "  <div>ab") 7
         ++ skipn 9 (lit "  <div>ab")
    /\ cursor = 12%Z.
Proof.
  destruct (handleKeyDown_splice true false 7 9 (lit "  <div>ab"))
    as (H & _).
  destruct H as (newValue & cursor & H1 & H2 & H3 & _);
    [reflexivity | lia | simpl; lia |].
  exists newValue, cursor. split; [exact H1|]. split; [exact H2|].
  rewrite H3. reflexivity.
Defined.

(** X10: With the cursor inside the text, the indentation of the new line is the
    white space at the start of the current line (the text between the last
    line feed before the cursor and the cursor), with two spaces more when
    that text opens a block; it holds no line feed, so that Enter adds
    exactly one line feed to what it keeps. *)
Theorem handleKeyDown_indentation
    (autoIndent learnerMode : bool) (start end_ : Z) (value : jsstring) :
  autoIndent || learnerMode = true ->
  (0 < start <= end_)%Z -> (end_ <= Z.of_nat (length value))%Z ->
  exists before line newValue cursor,
    firstn (Z.to_nat start) value = before ++ line
    /\ (before = [] \/ exists b, before = b ++ [NL])
    /\ ~ In NL line
    /\ indentationAt value start
       = leadingWhiteSpace line ++ (if opensBlock line then lit "  " else [])
    /\ ~ In NL (indentationAt value start)
    /\ handleKeyDown autoIndent learnerMode (lit "Enter") start end_ value
       = Some (newValue, cursor)
    /\ countNL newValue
       = (countNL (firstn (Z.to_nat start) value) + 1
          + countNL (skipn (Z.to_nat end_) value))%nat.
Proof.
  intros On Hs He.
  destruct (currentLineAt_inside value start ltac:(lia))
    as (before & E & B & N).
  assert (NI : ~ In NL (indentationAt value start)).
  { unfold indentationAt. cbv zeta. intros K.
    apply in_app_or in K as [K | K].
    - apply N. apply leadingWhiteSpace_In. exact K.
    - destruct (opensBlock _); [|destruct K].
      destruct K as [K | [K | []]]; discriminate. }
  assert (C0 : forall s, ~ In NL s -> countNL s = 0%nat).
  { induction s as [|c s IH]; simpl; [reflexivity|]. intros K.
    destruct (N.eqb_spec c NL) as [-> | D]; [destruct K; auto|].
    apply IH. intros K'. apply K. auto. }
  exists before, (currentLineAt value start).
  unfold handleKeyDown. rewrite On. cbn [andb].
  replace (jseqb (lit "Enter") (lit "Enter")) with true by reflexivity.
  cbv zeta. rewrite substring_prefix, substring_suffix by lia.
  eexists _, _. repeat split; auto.
  rewrite countNL_app. cbn [countNL]. rewrite N.eqb_refl.
  rewrite countNL_app, (C0 _ NI). lia.
Qed.

Lemma handleKeyDown_indentation_witness :
  exists before line newValue cursor,
    firstn 9 (lit "a" ++ NL :: lit "  f() {") = before ++ line
    /\ ~ In NL line
    /\ indentationAt (lit "a" ++ NL :: lit "  f() {") 9
       = leadingWhiteSpace line ++ (if opensBlock line then lit "  " else [])
    /\ handleKeyDown true true (lit "Enter") 9 9
         (lit "a" ++ NL :: lit "  f() {") = Some (newValue, cursor).
Proof.
  destruct (handleKeyDown_indentation true true 9 9
              (lit "a" ++ NL :: lit "  f() {"))
    as (before & line & newValue & cursor & H1 & _ & H2 & H3 & _ & H4 & _);
    [reflexivity | lia | simpl; lia |].
  exists before, line, newValue, cursor. auto.
Defined.

(** X11: Enter with the cursor at the very start of a text that begins with a
    line feed takes that line feed for the indentation: two line feeds are
    put in instead of one, and the cursor goes after the second.  At the
    start of any other text one line feed is put in, without indentation. *)
Theorem handleKeyDown_at_start
    (autoIndent learnerMode : bool) (end_ : Z) (value : jsstring) :
  autoIndent || learnerMode = true ->
  (0 <= end_ <= Z.of_nat (length value))%Z ->
  (isPrefix [NL] value ->
   handleKeyDown autoIndent learnerMode (lit "Enter") 0 end_ value
   = Some (NL :: NL :: skipn (Z.to_nat end_) value, 2%Z))
  /\ (~ isPrefix [NL] value ->
      handleKeyDown autoIndent learnerMode (lit "Enter") 0 end_ value
      = Some (NL :: skipn (Z.to_nat end_) value, 1%Z)).
Proof.
  intros On He. unfold handleKeyDown. rewrite On. cbn [andb].
  replace (jseqb (lit "Enter") (lit "Enter")) with true by reflexivity.
  cbv zeta. rewrite substring_prefix, substring_suffix by lia.
  unfold indentationAt. cbv zeta. rewrite currentLineAt_start.
  change (Z.to_nat 0) with 0%nat. cbn [firstn app].
  split.
  - intros [t ->]. cbn [app]. rewrite N.eqb_refl. reflexivity.
  - intros NP. destruct value as [|c value]; [reflexivity|].
    destruct (N.eqb_spec c NL) as [-> | D]; [|reflexivity].
    destruct NP. exists value. reflexivity.
Qed.

Lemma handleKeyDown_at_start_witness :
  handleKeyDown true false (lit "Enter") 0 0 (NL :: lit "abc")
  = Some (NL :: NL :: NL :: lit "abc", 2%Z).
Proof.
  destruct (handleKeyDown_at_start true false 0 (NL :: lit "abc") eq_refl)
    as (H & _); [simpl; lia|].
  apply H. exists (lit "abc"). reflexivity.
Defined.

(* ================================================================== *)
(** * Preview images *)
(* ================================================================== *)

Lemma startsWith_app (p t : jsstring) : startsWith (p ++ t) p = true.
Proof. apply startsWith_iff. exists t. reflexivity. Qed.

Lemma skipn_length_app (p t : jsstring) : skipn (length p) (p ++ t) = t.
Proof.
  rewrite skipn_app, skipn_all, Nat.sub_diag. reflexivity.
Qed.

(** X30: The image a preview is given as goes back to its bare data when it is
    sent for refinement: stripping undoes the prefix put before the data of
    the first inline part.  Stripping only ever removes a prefix, and
    changes nothing in a text that does not begin as a data URL of an
    image. *)
Theorem stripDataUrlPrefix_round_trip :
  (forall data, stripDataUrlPrefix (PNG_PREFIX ++ data) = data)
  /\ (forall data, stripDataUrlPrefix (JPEG_PREFIX ++ data) = data)
  /\ (forall data, stripDataUrlPrefix (JPG_PREFIX ++ data) = data)
  /\ (forall before data parts,
        Forall (fun p => p = None) before ->
        stripDataUrlPrefix (firstInlineImage (before ++ Some data :: parts))
        = data)
  /\ (forall s, isSuffix (stripDataUrlPrefix s) s)
  /\ (forall s, ~ isPrefix (lit "data:image/") s -> stripDataUrlPrefix s = s).
Proof.
  assert (P : forall data, stripDataUrlPrefix (PNG_PREFIX ++ data) = data).
  { intros data. unfold stripDataUrlPrefix.
    rewrite startsWith_app. apply skipn_length_app. }
  split; [exact P|]. split; [|split; [|split; [|split]]].
  - intros data. reflexivity.
  - intros data. reflexivity.
  - intros before data parts F. induction F as [|p before -> _ IH].
    + apply P.
    + exact IH.
  - intros s. unfold stripDataUrlPrefix.
    destruct (startsWith s PNG_PREFIX);
      [exists (firstn (length PNG_PREFIX) s); symmetry; apply firstn_skipn|].
    destruct (startsWith s JPEG_PREFIX);
      [exists (firstn (length JPEG_PREFIX) s); symmetry; apply firstn_skipn|].
    destruct (startsWith s JPG_PREFIX);
      [exists (firstn (length JPG_PREFIX) s); symmetry; apply firstn_skipn|].
    exists []. reflexivity.
  - intros s N. unfold stripDataUrlPrefix.
    assert (K : forall rest, startsWith s (lit "data:image/" ++ rest) = false).
    { intros rest. apply not_true_is_false. intros H.
      apply startsWith_iff in H as [t ->]. apply N.
      exists (rest ++ t). rewrite <- app_assoc. reflexivity. }
    change PNG_PREFIX with (lit "data:image/" ++ lit "png;base64,").
    change JPEG_PREFIX with (lit "data:image/" ++ lit "jpeg;base64,").
    change JPG_PREFIX with (lit "data:image/" ++ lit "jpg;base64,").
    rewrite !K. reflexivity.
Qed.

Lemma stripDataUrlPrefix_round_trip_witness :
  stripDataUrlPrefix
    (firstInlineImage ([None] ++ Some (lit "iVBORw0KGgo=") :: []))
  = lit "iVBORw0KGgo=".
Proof.
  destruct stripDataUrlPrefix_round_trip as (_ & _ & _ & H & _).
  apply H. repeat constructor.
Defined.

(* ================================================================== *)
(** * Instructions with code blocks *)
(* ================================================================== *)

Lemma occursAt_length (p s : jsstring) (i : nat) :
  occursAt p s i -> (i + length p <= length s)%nat.
Proof.
  intros (pre & post & -> & <-). rewrite !length_app. lia.
Qed.

Lemma occursAt_fence_backtick (s : jsstring) (j : nat) :
  occursAt FENCE s j -> nth_error s j = Some BACKTICK.
Proof.
  intros (pre & post & -> & <-).
  rewrite nth_error_app2, Nat.sub_diag by lia. reflexivity.
Qed.

Lemma fence_after_plain (t r : jsstring) :
  ~ In BACKTICK t -> leftmostAt FENCE (t ++ FENCE ++ r) (length t).
Proof.
  intros N. split.
  - exists t, r. auto.
  - intros j Hj O. apply occursAt_fence_backtick in O.
    rewrite nth_error_app1 in O by exact Hj.
    apply nth_error_In in O. contradiction.
Qed.

Lemma no_fence_in_plain (t : jsstring) :
  ~ In BACKTICK t -> ~ Contains t FENCE.
Proof.
  intros N [j O]. apply occursAt_fence_backtick in O.
  apply nth_error_In in O. contradiction.
Qed.

Lemma takeWord_word (l r : jsstring) :
  forallb isWordChar l = true ->
  match r with [] => True | c :: _ => isWordChar c = false end ->
  takeWord (l ++ r) = l.
Proof.
  intros W R. induction l as [|c l IH]; simpl in *.
  - destruct r as [|c r]; simpl; [reflexivity | rewrite R; reflexivity].
  - apply andb_true_iff in W as [Wc W]. rewrite Wc, IH by exact W.
    reflexivity.
Qed.

Lemma takeWord_words (s : jsstring) :
  forallb isWordChar (takeWord s) = true.
Proof.
  induction s as [|c s IH]; simpl; [reflexivity|].
  destruct (isWordChar c) eqn:E; simpl; [rewrite E; exact IH | reflexivity].
Qed.

(** Found fences: the index as a natural number. *)
Lemma indexOf_found_nat (s p : jsstring) :
  (indexOf s p =? -1)%Z = false ->
  exists i, indexOf s p = Z.of_nat i /\ leftmostAt p s i.
Proof.
  intros H. apply Z.eqb_neq in H.
  destruct (indexOf_cases s p) as [[E _] | (i & E & L)]; [contradiction|].
  exists i. auto.
Qed.

(** A round of the loop leaves less text than it got. *)
Lemma renderLoop_rest_shorter (rest body : jsstring) (index close : nat)
    (language : jsstring) :
  body
  = (let afterLanguage :=
       skipn (length language) (skipn (index + 3) rest) in
     match afterLanguage with
     | c :: r => if (c =? NL)%N then r else afterLanguage
     | [] => []
     end) ->
  occursAt FENCE body close ->
  (length (skipn (close + 3) body) < length rest)%nat.
Proof.
  intros B O. apply occursAt_length in O. cbn [FENCE length] in O.
  rewrite length_skipn.
  assert (length body <= length rest)%nat; [|lia].
  rewrite B. cbv zeta.
  assert (L : (length (skipn (length language) (skipn (index + 3) rest))
               <= length rest)%nat) by (rewrite !length_skipn; lia).
  destruct (skipn (length language) (skipn (index + 3) rest)) as [|c r];
    [simpl; lia|].
  destruct (c =? NL)%N; simpl in *; lia.
Qed.

(** The loop does not depend on its fuel once the fuel exceeds the length
    of the text: [renderInstructions] gives the loop enough of it. *)
Lemma renderLoop_fuel (f1 f2 : nat) (rest : jsstring) :
  (length rest < f1)%nat -> (length rest < f2)%nat ->
  renderLoop f1 rest = renderLoop f2 rest.
Proof.
  revert f2 rest; induction f1 as [|f1 IH]; intros f2 rest H1 H2; [lia|].
  destruct f2 as [|f2]; [lia|]. cbn [renderLoop]. cbv zeta.
  destruct (indexOf rest FENCE =? -1)%Z eqn:E1; [reflexivity|].
  destruct (indexOf_found_nat _ _ E1) as (i & Ei & _). rewrite Ei, Nat2Z.id.
  match goal with
  | |- context [(indexOf ?b FENCE =? -1)%Z] =>
      set (body := b); destruct (indexOf body FENCE =? -1)%Z eqn:E2
  end; [reflexivity|].
  destruct (indexOf_found_nat _ _ E2) as (k & Ek & [Ok _]).
  rewrite Ek, Nat2Z.id. f_equal. f_equal.
  pose proof (renderLoop_rest_shorter rest body i k
                (takeWord (skipn (i + 3) rest)) eq_refl Ok).
  apply IH; lia.
Qed.

Lemma Contains_skipn (n : nat) (s p : jsstring) :
  ~ Contains s p -> ~ Contains (skipn n s) p.
Proof.
  intros H C. apply H. apply Contains_iff in C as (x & y & E).
  apply Contains_iff. exists (firstn n s ++ x), y.
  rewrite <- app_assoc, <- E. symmetry. apply firstn_skipn.
Qed.

(** X13: Instructions without a fence are shown as one text, whole, and
    empty instructions show nothing.  So are instructions whose first fence
    is never closed, whatever stands before it: when the first fence starts
    at offset i and no fence occurs from offset i + 3 on, the whole text is
    shown as one text. *)
Theorem renderInstructions_plain (text : jsstring) :
  (~ Contains text FENCE -> renderInstructions text = trailingText text)
  /\ (forall i,
        leftmostAt FENCE text i ->
        ~ Contains (skipn (i + 3) text) FENCE ->
        renderInstructions text = [TextBlock text])
  /\ renderInstructions [] = [].
Proof.
  split; [|split].
  - intros N. unfold renderInstructions. cbn [renderLoop]. cbv zeta.
    rewrite (indexOf_absent text FENCE N). reflexivity.
  - intros i L NA. unfold renderInstructions.
    cbn [renderLoop]. cbv zeta.
    rewrite (indexOf_leftmost _ _ _ L).
    replace (Z.of_nat i =? -1)%Z with false
      by (symmetry; apply Z.eqb_neq; lia).
    rewrite Nat2Z.id.
    set (after := skipn (i + 3) text) in *.
    match goal with
    | |- context [(indexOf ?b FENCE =? -1)%Z] =>
        assert (NF : ~ Contains b FENCE)
    end.
    { pose proof (Contains_skipn (length (takeWord after)) after FENCE NA)
        as K.
      destruct (skipn (length (takeWord after)) after) as [|c r]; [exact K|].
      destruct (c =? NL)%N; [|exact K].
      intros C. apply K. apply Contains_cons. exact C. }
    rewrite (indexOf_absent _ _ NF). cbn [Z.eqb].
    destruct L as [O _]. apply occursAt_length in O.
    destruct text; [simpl in O; lia | reflexivity].
  - reflexivity.
Qed.

Lemma renderInstructions_plain_witness :
  let text := lit "Use `h1`: " ++ FENCE ++ lit "html" ++ NL :: lit "<h1>" in
  renderInstructions text = [TextBlock text].
Proof.
  intros text.
  destruct (renderInstructions_plain text) as (_ & H & _).
  apply (H 10%nat).
  - apply indexOf_found. reflexivity.
  - apply indexOf_missing. reflexivity.
Defined.

Lemma firstn_length_app (p t : jsstring) : firstn (length p) (p ++ t) = p.
Proof.
  rewrite firstn_app, firstn_all, Nat.sub_diag. simpl. apply app_nil_r.
Qed.

Lemma skipn_past_fence (t r : jsstring) :
  skipn (length t + 3) (t ++ FENCE ++ r) = r.
Proof.
  replace (t ++ FENCE ++ r) with ((t ++ FENCE) ++ r)
    by (rewrite <- app_assoc; reflexivity).
  replace (length t + 3)%nat with (length (t ++ FENCE))
    by (rewrite length_app; reflexivity).
  apply skipn_length_app.
Qed.

(** One round on a text that starts with plain text and a fenced block. *)
Lemma renderLoop_block (fuel : nat) (t l c rest : jsstring) :
  ~ In BACKTICK t -> forallb isWordChar l = true -> ~ In BACKTICK c ->
  (length (t ++ FENCE ++ l ++ NL :: c ++ FENCE ++ rest) < fuel)%nat ->
  renderLoop fuel (t ++ FENCE ++ l ++ NL :: c ++ FENCE ++ rest)
  = trailingText t ++ CodeBlock l c :: renderInstructions rest.
Proof.
  intros Nt Wl Nc Hf. destruct fuel as [|fuel]; [lia|].
  cbn [renderLoop]. cbv zeta.
  rewrite (indexOf_leftmost _ _ _ (fence_after_plain t _ Nt)).
  replace (Z.of_nat (length t) =? -1)%Z with false
    by (symmetry; apply Z.eqb_neq; lia).
  rewrite Nat2Z.id, skipn_past_fence.
  rewrite (takeWord_word l (NL :: c ++ FENCE ++ rest) Wl eq_refl).
  rewrite skipn_length_app. rewrite N.eqb_refl.
  rewrite (indexOf_leftmost _ _ _ (fence_after_plain c _ Nc)).
  replace (Z.of_nat (length c) =? -1)%Z with false
    by (symmetry; apply Z.eqb_neq; lia).
  rewrite Nat2Z.id, skipn_past_fence, !firstn_length_app.
  f_equal.
  - destruct t; [reflexivity|]. reflexivity.
  - f_equal. unfold renderInstructions. apply renderLoop_fuel; [|lia].
    rewrite !length_app in Hf. cbn [length] in Hf.
    rewrite !length_app in Hf. lia.
Qed.

Lemma printBlock_app (l c r : jsstring) :
  (FENCE ++ l ++ NL :: c ++ FENCE) ++ r = FENCE ++ l ++ NL :: c ++ FENCE ++ r.
Proof.
  rewrite <- !app_assoc. f_equal. f_equal.
  rewrite <- app_comm_cons, <- app_assoc. reflexivity.
Qed.

Lemma renderInstructions_plain_aux (t : jsstring) :
  ~ In BACKTICK t -> renderInstructions t = trailingText t.
Proof.
  intros N. unfold renderInstructions. cbn [renderLoop]. cbv zeta.
  rewrite (indexOf_absent t FENCE (no_fence_in_plain t N)). reflexivity.
Qed.

(** X14: Rendering reads back what was written out: a document of plain texts
    and code blocks, no two texts side by side, written with fences, is
    rendered as exactly its elements. *)
Theorem renderInstructions_round_trip (els : list element) :
  Forall plainElement els -> textsApart els ->
  renderInstructions (printDocument els) = els.
Proof.
  remember (length els) as n eqn:Hn. revert els Hn.
  induction n as [n IH] using lt_wf_ind. intros els Hn P A.
  destruct els as [|[t | l c] rest]; [reflexivity | |].
  - destruct rest as [|[t' | l c] rest].
    + inversion P as [|? ? Pt _]; subst. destruct Pt as [Ne Nb].
      unfold printDocument. cbn [map concat printElement].
      rewrite app_nil_r.
      rewrite (renderInstructions_plain_aux t Nb).
      destruct t; [contradiction | reflexivity].
    + destruct A.
    + inversion P as [|? ? Pt P']; subst. destruct Pt as [Ne Nb].
      inversion P' as [|? ? Pc P'']; subst. destruct Pc as [Wl Nc].
      unfold printDocument. cbn [map concat printElement].
      fold (printDocument rest).
      rewrite printBlock_app.
      unfold renderInstructions at 1.
      rewrite renderLoop_block by (auto; lia).
      rewrite (IH (length rest)); [|simpl; lia | reflexivity
                                   | exact P'' | exact A].
      destruct t; [contradiction | reflexivity].
  - inversion P as [|? ? Pc P']; subst. destruct Pc as [Wl Nc].
    unfold printDocument. cbn [map concat printElement].
    fold (printDocument rest).
    rewrite printBlock_app.
    change (FENCE ++ l ++ NL :: c ++ FENCE ++ printDocument rest)
      with ([] ++ FENCE ++ l ++ NL :: c ++ FENCE ++ printDocument rest).
    unfold renderInstructions at 1.
    rewrite renderLoop_block by (auto; lia).
    rewrite (IH (length rest)); [reflexivity | simpl; lia | reflexivity
                                 | exact P' |].
    destruct rest as [|[|] rest]; exact A.
Qed.

Lemma renderInstructions_round_trip_witness :
  renderInstructions
    (printDocument [TextBlock (lit "Copy this:"); CodeBlock (lit "html")
                      (lit "<h1>Hi</h1>"); TextBlock (lit "Then run.")])
  = [TextBlock (lit "Copy this:"); CodeBlock (lit "html") (lit "<h1>Hi</h1>");
     TextBlock (lit "Then run.")].
Proof.
  apply renderInstructions_round_trip.
  - repeat constructor; simpl; intuition discriminate.
  - exact I.
Defined.

Lemma Contains_firstn_leftmost (s p : jsstring) (i : nat) :
  p <> [] -> leftmostAt p s i -> ~ Contains (firstn i s) p.
Proof.
  intros Np [Oi Li] [j (pre & post & E & Lj)].
  assert (Hj : (j < i)%nat).
  { assert (length (firstn i s) <= i)%nat by apply firstn_le_length.
    rewrite E, !length_app in H. destruct p; [contradiction|].
    simpl in H. lia. }
  apply (Li j Hj). exists pre, (post ++ skipn i s). split; [|exact Lj].
  rewrite <- (firstn_skipn i s) at 1. rewrite E, <- !app_assoc. reflexivity.
Qed.

(** X15: What rendering gives, whatever the instructions: no text element is
    empty, the language of a code block is a word, the code of a code block
    holds no fence, and a text that is followed by another element holds no
    fence either. *)
Theorem renderInstructions_elements (text : jsstring) :
  Forall (fun e =>
            match e with
            | TextBlock t => t <> []
            | CodeBlock l c =>
                forallb isWordChar l = true /\ ~ Contains c FENCE
            end) (renderInstructions text)
  /\ forall before t after,
       renderInstructions text = before ++ TextBlock t :: after ->
       after <> [] -> ~ Contains t FENCE.
Proof.
  unfold renderInstructions. generalize (S (length text)) as fuel.
  intros fuel. revert text.
  induction fuel as [|fuel IH]; intros text.
  - split; [constructor|]. intros [|? ?] t after E; discriminate.
  - cbn [renderLoop]. cbv zeta.
    assert (T : Forall (fun e =>
                  match e with
                  | TextBlock t => t <> []
                  | CodeBlock l c =>
                      forallb isWordChar l = true /\ ~ Contains c FENCE
                  end) (trailingText text)
                /\ forall before t after,
                     trailingText text = before ++ TextBlock t :: after ->
                     after <> [] -> ~ Contains t FENCE).
    { destruct text as [|c text]; simpl.
      - split; [constructor|]. intros [|? ?] t after E; discriminate.
      - split; [repeat constructor; discriminate|].
        intros [|? [|? ?]] t after E; try discriminate.
        injection E as _ <-. intros K. contradiction. }
    destruct (indexOf text FENCE =? -1)%Z eqn:E1; [exact T|].
    destruct (indexOf_found_nat _ _ E1) as (i & Ei & Li).
    rewrite Ei, Nat2Z.id.
    match goal with
    | |- context [(indexOf ?b FENCE =? -1)%Z] =>
        set (body := b); destruct (indexOf body FENCE =? -1)%Z eqn:E2
    end; [exact T|].
    destruct (indexOf_found_nat _ _ E2) as (k & Ek & Lk).
    rewrite Ek, Nat2Z.id.
    destruct (IH (skipn (k + 3) body)) as [F1 F2].
    assert (Ft : ~ Contains (firstn i text) FENCE)
      by (apply Contains_firstn_leftmost; [discriminate | exact Li]).
    assert (Fc : ~ Contains (firstn k body) FENCE)
      by (apply Contains_firstn_leftmost; [discriminate | exact Lk]).
    destruct (Z.ltb_spec 0 (Z.of_nat i)) as [Hi | Hi].
    + split.
      * constructor.
        -- destruct Li as [Oi _]. apply occursAt_length in Oi.
           cbn [FENCE length] in Oi. destruct text; simpl in *; [lia|].
           destruct i; [lia | discriminate].
        -- constructor; [split; [apply takeWord_words | exact Fc] | exact F1].
      * intros [|e [|e' before]] t after E A.
        -- injection E as <- _. exact Ft.
        -- discriminate.
        -- cbn [app] in E. injection E as _ _ E. apply (F2 before t after E A).
    + split.
      * constructor; [split; [apply takeWord_words | exact Fc] | exact F1].
      * intros [|e before] t after E A; [discriminate|].
        cbn [app] in E. injection E as _ E. apply (F2 before t after E A).
Qed.

Lemma renderInstructions_elements_witness :
  ~ Contains (lit "Copy this:") FENCE.
Proof.
  destruct (renderInstructions_elements
              (printDocument [TextBlock (lit "Copy this:");
                              CodeBlock (lit "html") (lit "<h1>Hi</h1>")]))
    as (_ & H).
  apply (H [] (lit "Copy this:") [CodeBlock (lit "html") (lit "<h1>Hi</h1>")]);
    [reflexivity | discriminate].
Defined.

(* ================================================================== *)
(** * The tracker on a buffer that does not change *)
(* ================================================================== *)

Lemma skipn_nth_error {A : Type} (l : list A) (i : nat) (x : A) :
  nth_error l i = Some x -> skipn i l = x :: skipn (S i) l.
Proof.
  revert i; induction l as [|y l IH]; intros [|i]; simpl; try discriminate.
  - intros H. injection H as ->. reflexivity.
  - intros H. apply IH. exact H.
Qed.

(** X2: The effect runs again whenever the index has changed.  On one and the
    same buffer, learner mode on, the runs take the index up one step at a
    time past every step the buffer holds, to the first step it does not
    hold, and leave it there: after n runs from index idx the index is idx
    plus the smaller of n and the number of steps held without a gap from
    idx on.  The completion callback has fired once if the index got from
    below the number of steps to it, and not at all otherwise. *)
Theorem runValidation_settles
    (lessonId : jsstring) (steps : list LearnerStep) (r : render) (n : nat) :
  learnerModeActive r = true ->
  forall idx,
    fst (runValidation lessonId steps idx (repeat r n))
    = (idx + Nat.min n (leadingMatches r (skipn idx steps)))%nat
    /\ completions (snd (runValidation lessonId steps idx (repeat r n)))
       = if (idx <? length steps)%nat
            && (idx + Nat.min n (leadingMatches r (skipn idx steps))
                =? length steps)%nat
         then 1%nat else 0%nat.
Proof.
  intros A idx.
  assert (F : fst (runValidation lessonId steps idx (repeat r n))
              = (idx + Nat.min n (leadingMatches r (skipn idx steps)))%nat).
  { revert idx; induction n as [|n IH]; intros idx; [simpl; lia|].
    cbn [repeat]. rewrite runValidation_cons. cbn [fst].
    destruct (nth_error steps idx) as [step|] eqn:E.
    - rewrite (skipn_nth_error steps idx step E). cbn [leadingMatches].
      destruct (includes (stripWhiteSpace (buffer r))
                  (stripWhiteSpace (code step))) eqn:I.
      + rewrite (validate_advance lessonId steps idx r step A E)
          by (apply includes_iff; exact I).
        cbn [fst]. rewrite IH. lia.
      + rewrite (validate_stay lessonId steps idx r step E).
        * cbn [fst]. rewrite IH, (skipn_nth_error steps idx step E).
          cbn [leadingMatches]. rewrite I. lia.
        * unfold matches. rewrite <- includes_iff. congruence.
    - apply nth_error_None in E.
      rewrite validate_idle by auto. cbn [fst].
      rewrite runValidation_terminal by exact E.
      rewrite skipn_all2 by exact E. simpl. lia. }
  split; [exact F|].
  rewrite runValidation_completions, F. reflexivity.
Qed.

Lemma runValidation_settles_witness :
  let r := mkRender true (lit "h1 { color: red; font-size: 2em; }") 1024 in
  fst (runValidation (lit "lesson-1") scenarioB_steps 0 (repeat r 5))
  = (0 + Nat.min 5 (leadingMatches r (skipn 0 scenarioB_steps)))%nat.
Proof.
  intros r.
  apply (runValidation_settles (lit "lesson-1") scenarioB_steps r 5 eq_refl 0).
Defined.

(* ================================================================== *)
(** * Generated lesson ids *)
(* ================================================================== *)

Lemma lit_inj (s t : string) : lit s = lit t -> s = t.
Proof.
  unfold lit. intros H.
  rewrite <- (string_of_list_ascii_of_string s),
          <- (string_of_list_ascii_of_string t).
  f_equal. revert H.
  generalize (list_ascii_of_string s) (list_ascii_of_string t).
  induction l as [|a l IH]; intros [|b l'] H; simpl in H; try discriminate;
    [reflexivity|].
  injection H as Hab H. f_equal; [|apply IH; exact H].
  rewrite <- (ascii_N_embedding a), <- (ascii_N_embedding b), Hab.
  reflexivity.
Qed.

Lemma decimal_inj (n m : nat) : decimal n = decimal m -> n = m.
Proof.
  unfold decimal. intros H. apply lit_inj in H.
  apply DecimalNat.Unsigned.to_uint_inj.
  pose proof (DecimalString.NilEmpty.usu (Nat.to_uint n)) as Hn.
  pose proof (DecimalString.NilEmpty.usu (Nat.to_uint m)) as Hm.
  rewrite H in Hn. congruence.
Qed.

Lemma decimal_digits (n : nat) (c : jschar) :
  In c (decimal n) -> (48 <= c <= 57)%N.
Proof.
  unfold decimal. generalize (Nat.to_uint n) as d.
  induction d; simpl; intros H;
    try (destruct H as [<- | H]; [cbv; split; discriminate | auto]).
  destruct H.
Qed.

Lemma split_at_dash (a a' b b' : jsstring) :
  ~ In 45%N a -> ~ In 45%N a' ->
  a ++ 45%N :: b = a' ++ 45%N :: b' -> a = a' /\ b = b'.
Proof.
  revert a'; induction a as [|x a IH]; intros [|y a'] Na Na' H; simpl in H.
  - injection H as ->. auto.
  - injection H as <- _. destruct Na'. left. reflexivity.
  - injection H as -> _. destruct Na. left. reflexivity.
  - injection H as -> H. destruct (IH a') as [-> ->]; auto.
    + intros K. apply Na. right. exact K.
    + intros K. apply Na'. right. exact K.
Qed.

Lemma generatedLessonId_inj (i j i' j' : nat) :
  generatedLessonId i j = generatedLessonId i' j' -> i = i' /\ j = j'.
Proof.
  unfold generatedLessonId. intros H. apply app_inv_head in H.
  assert (D : forall n, ~ In 45%N (decimal n)).
  { intros n K. apply decimal_digits in K. lia. }
  apply (split_at_dash _ _ _ _ (D i) (D i')) in H as [Hi Hj].
  split; apply decimal_inj; assumption.
Qed.

Lemma processLesson_ids (i t : nat) (ls : list Lesson.t) :
  Forall (fun l => Lesson.id l = []) ls ->
  List.map Lesson.id (mapiFrom (processLesson i) t ls)
  = List.map (fun j => generatedLessonId i j) (seq t (length ls)).
Proof.
  intros F. revert t; induction F as [|l ls E _ IH]; intros t;
    [reflexivity|].
  cbn [mapiFrom map length seq processLesson Lesson.id].
  rewrite E, IH. reflexivity.
Qed.

Lemma processModule_ids (s : nat) (ms : list CourseModule.t) :
  Forall (fun l => Lesson.id l = []) (flat_map CourseModule.lessons ms) ->
  List.map Lesson.id
    (flat_map CourseModule.lessons (mapiFrom processModule s ms))
  = List.map (fun p => generatedLessonId (fst p) (snd p)) (lessonPlaces s ms).
Proof.
  revert s; induction ms as [|m ms IH]; intros s F; [reflexivity|].
  cbn [flat_map] in F. apply Forall_app in F as [F1 F2].
  cbn [mapiFrom flat_map lessonPlaces processModule CourseModule.lessons].
  rewrite !map_app, IH by exact F2. f_equal.
  unfold mapi. rewrite processLesson_ids by exact F1.
  rewrite map_map. reflexivity.
Qed.

Lemma lessonPlaces_from (s : nat) (ms : list CourseModule.t) (p : nat * nat) :
  In p (lessonPlaces s ms) -> (s <= fst p)%nat.
Proof.
  revert s; induction ms as [|m ms IH]; intros s; simpl; [tauto|].
  intros H. apply in_app_or in H as [H | H].
  - apply in_map_iff in H as (j & <- & _). simpl. lia.
  - apply IH in H. lia.
Qed.

Lemma lessonPlaces_NoDup (s : nat) (ms : list CourseModule.t) :
  NoDup (lessonPlaces s ms).
Proof.
  revert s; induction ms as [|m ms IH]; intros s; simpl; [constructor|].
  apply NoDup_app.
  - apply NoDup_map_NoDup_ForallPairs; [|apply seq_NoDup].
    intros x y _ _ H. congruence.
  - apply IH.
  - intros p H K. apply in_map_iff in H as (j & <- & _).
    apply lessonPlaces_from in K. simpl in K. lia.
Qed.

(** X24: When no lesson of the answer came with an id, the lessons of the
    processed course get ids that are all different, so that completing a
    lesson by its id marks that lesson and no other. *)
Theorem processCourse_generated_ids_distinct
    (data : Course.t) (uuid : jsstring) (now now' : Z)
    (visualDescription previewImage : option jsstring) :
  Forall (fun l => Lesson.id l = []) (allLessons data) ->
  NoDup (List.map Lesson.id
           (allLessons
              (processCourse data uuid now now' visualDescription
                 previewImage))).
Proof.
  intros F. unfold allLessons, processCourse. cbn [Course.modules].
  unfold mapi. rewrite processModule_ids by exact F.
  apply NoDup_map_NoDup_ForallPairs; [|apply lessonPlaces_NoDup].
  intros [i j] [i' j'] _ _ H. cbn [fst snd] in H.
  apply generatedLessonId_inj in H as [-> ->]. reflexivity.
Qed.

Lemma processCourse_generated_ids_distinct_witness :
  NoDup (List.map Lesson.id
           (allLessons
              (processCourse
                 (Course.mk [] [] [] [] None None
                    [CourseModule.mk [] [] []
                       [Lesson.mk [] [] [] [] [] [] [] None false None;
                        Lesson.mk [] [] [] [] [] [] [] None false None]]
                    None 0) (lit "uuid") 7 8 None None))).
Proof.
  apply processCourse_generated_ids_distinct. repeat constructor.
Defined.
